(** * simple_tp: the per-cycle position/velocity/acceleration limiter

    Shallow embedding of [src/emc/motion/simple_tp.c] (LinuxCNC motion
    module) and the properties of its single entry point
    [simple_tp_update].

    Numbers.  The C code computes on [double].  The development works in
    the exact arithmetic the specification is written in (its fields are
    "real"): every [double] is a rational [Q], [+ - * /] are the exact
    field operations, [fabs], [fmax], [fmin] and [pow] are their exact
    counterparts.  Rounding, infinities and NaN are outside this model,
    and so is a division by zero ([Q] gives 0 where C gives an infinity
    or a NaN): the model is that of the calls the contract allows, with a
    nonzero period and a nonzero [max_acc].  All definitions compute, so
    every scenario can be evaluated.

    Equality.  [SET_NEXT_STATE] copies values, so most statements are
    about Leibniz equality of the stored rationals; where a number is the
    result of arithmetic it is compared with [==] (equality of fractions). *)

From Stdlib Require Import ZArith QArith Qabs Lqa Lia Bool.

Open Scope Q_scope.

(** ** The channel state, [simple_tp_t]

    The fields of the struct as [simple_tp_update] reads and writes them.
    [enable], [active] and [disallow_backoff] are C ints used as truth
    values.  The projections carry the prefix [tp_] (for [tp->]) because
    the function has locals called [max_vel], [min_pos] and [max_pos] that
    shadow nothing in C but would clash here. *)
Record simple_tp_t : Type := mk_simple_tp {
  tp_pos_cmd : Q;           (* position command *)
  tp_max_vel : Q;           (* velocity limit *)
  tp_max_acc : Q;           (* acceleration limit *)
  tp_enable : bool;         (* if zero, motion stops *)
  tp_curr_pos : Q;          (* current position *)
  tp_curr_vel : Q;          (* current velocity *)
  tp_active : bool;         (* non-zero if motion in progress *)
  tp_in_pos_old : Q;        (* command of the previous cycle *)
  tp_out_vel_old : Q;       (* output velocity of the previous cycle *)
  tp_min_pos : Q;           (* lower position bound *)
  tp_max_pos : Q;           (* upper position bound *)
  tp_disallow_backoff : bool
}.

(** Field assignments [tp->f = v]. *)
Definition set_active (tp : simple_tp_t) (b : bool) : simple_tp_t :=
  mk_simple_tp (tp_pos_cmd tp) (tp_max_vel tp) (tp_max_acc tp) (tp_enable tp)
    (tp_curr_pos tp) (tp_curr_vel tp) b (tp_in_pos_old tp)
    (tp_out_vel_old tp) (tp_min_pos tp) (tp_max_pos tp)
    (tp_disallow_backoff tp).

Definition set_pos_cmd (tp : simple_tp_t) (x : Q) : simple_tp_t :=
  mk_simple_tp x (tp_max_vel tp) (tp_max_acc tp) (tp_enable tp)
    (tp_curr_pos tp) (tp_curr_vel tp) (tp_active tp) (tp_in_pos_old tp)
    (tp_out_vel_old tp) (tp_min_pos tp) (tp_max_pos tp)
    (tp_disallow_backoff tp).

Definition set_curr_pos (tp : simple_tp_t) (x : Q) : simple_tp_t :=
  mk_simple_tp (tp_pos_cmd tp) (tp_max_vel tp) (tp_max_acc tp) (tp_enable tp)
    x (tp_curr_vel tp) (tp_active tp) (tp_in_pos_old tp)
    (tp_out_vel_old tp) (tp_min_pos tp) (tp_max_pos tp)
    (tp_disallow_backoff tp).

Definition set_out_vel_old (tp : simple_tp_t) (x : Q) : simple_tp_t :=
  mk_simple_tp (tp_pos_cmd tp) (tp_max_vel tp) (tp_max_acc tp) (tp_enable tp)
    (tp_curr_pos tp) (tp_curr_vel tp) (tp_active tp) (tp_in_pos_old tp)
    x (tp_min_pos tp) (tp_max_pos tp) (tp_disallow_backoff tp).

Definition set_curr_vel (tp : simple_tp_t) (x : Q) : simple_tp_t :=
  mk_simple_tp (tp_pos_cmd tp) (tp_max_vel tp) (tp_max_acc tp) (tp_enable tp)
    (tp_curr_pos tp) x (tp_active tp) (tp_in_pos_old tp)
    (tp_out_vel_old tp) (tp_min_pos tp) (tp_max_pos tp)
    (tp_disallow_backoff tp).

Definition set_in_pos_old (tp : simple_tp_t) (x : Q) : simple_tp_t :=
  mk_simple_tp (tp_pos_cmd tp) (tp_max_vel tp) (tp_max_acc tp) (tp_enable tp)
    (tp_curr_pos tp) (tp_curr_vel tp) (tp_active tp) x
    (tp_out_vel_old tp) (tp_min_pos tp) (tp_max_pos tp)
    (tp_disallow_backoff tp).

(** ** The arithmetic of [rtapi_math.h] on exact numbers *)

(** The C comparisons [x <= y] and [x < y]. *)
Definition Qleb (x y : Q) : bool := Qle_bool x y.
Definition Qltb (x y : Q) : bool := negb (Qle_bool y x).

Definition fabs (x : Q) : Q := Qabs x.
Definition fmax (x y : Q) : Q := if Qltb x y then y else x.
Definition fmin (x y : Q) : Q := if Qltb y x then y else x.
Definition pow (x : Q) (n : positive) : Q := Qpower_positive x n.

(** ** The locals of [simple_tp_update]

    Each local of the function is a function of the state the body reads
    and of [fperiod]; the names are those of the C locals. *)

(** Input velocity. *)
Definition in_vel (tp : simple_tp_t) (fperiod : Q) : Q :=
  (tp_pos_cmd tp - tp_in_pos_old tp) / fperiod.

(** Most negative/positive velocity reachable in one period. *)
Definition min_vel (tp : simple_tp_t) (fperiod : Q) : Q :=
  fmax (tp_out_vel_old tp - tp_max_acc tp * fperiod) (- tp_max_vel tp).
Definition max_vel (tp : simple_tp_t) (fperiod : Q) : Q :=
  fmin (tp_out_vel_old tp + tp_max_acc tp * fperiod) (tp_max_vel tp).

(** Most negative/positive position reachable in one period. *)
Definition min_pos (tp : simple_tp_t) (fperiod : Q) : Q :=
  tp_curr_pos tp + min_vel tp fperiod * fperiod.
Definition max_pos (tp : simple_tp_t) (fperiod : Q) : Q :=
  tp_curr_pos tp + max_vel tp fperiod * fperiod.

(** Direction (sign) of output movement; zero counts as positive. *)
Definition out_dir (tp : simple_tp_t) : Z :=
  if Qltb (tp_out_vel_old tp) 0 then (-1)%Z else 1%Z.

(** Direction of output movement relative to input movement. *)
Definition out_dir_rel (tp : simple_tp_t) (fperiod : Q) : Z :=
  if Qltb (tp_out_vel_old tp - in_vel tp fperiod) 0 then (-1)%Z else 1%Z.

(** Minimal time to decelerate to a stop, and the position after it. *)
Definition vel_0_time (tp : simple_tp_t) : Q :=
  fabs (tp_out_vel_old tp / tp_max_acc tp).
Definition vel_0_pos (tp : simple_tp_t) (fperiod : Q) : Q :=
  tp_curr_pos tp
  + tp_out_vel_old tp * (vel_0_time tp + fperiod)
  + (1#2) * (inject_Z (- out_dir tp) * tp_max_acc tp) * pow (vel_0_time tp) 2.

(** Minimal time for a velocity match, and the input and output positions
    after it. *)
Definition vel_match_time (tp : simple_tp_t) (fperiod : Q) : Q :=
  fabs (tp_out_vel_old tp - in_vel tp fperiod) / tp_max_acc tp.
Definition vel_match_in_pos (tp : simple_tp_t) (fperiod : Q) : Q :=
  tp_pos_cmd tp + in_vel tp fperiod * vel_match_time tp fperiod.
Definition vel_match_out_pos (tp : simple_tp_t) (fperiod : Q) : Q :=
  tp_curr_pos tp
  + tp_out_vel_old tp * (vel_match_time tp fperiod + fperiod)
  + (1#2) * (inject_Z (- out_dir_rel tp fperiod) * tp_max_acc tp)
    * pow (vel_match_time tp fperiod) 2.

(** [VALID_NEXT(pos, vel)]: the macro closes over the locals [min_pos],
    [max_pos], [min_vel] and [max_vel], the window reachable in one period. *)
Definition VALID_NEXT (tp : simple_tp_t) (fperiod pos vel : Q) : bool :=
  Qleb pos (max_pos tp fperiod) && Qleb (min_pos tp fperiod) pos
  && Qleb vel (max_vel tp fperiod) && Qleb (min_vel tp fperiod) vel.

(** ** The conditions of the cascade, in source order *)

(** Rule 1, [vel_0_pos >= tp->max_pos && !VALID_NEXT(tp->max_pos,0)]. *)
Definition stop_overshoot_max (tp : simple_tp_t) (fperiod : Q) : bool :=
  Qleb (tp_max_pos tp) (vel_0_pos tp fperiod)
  && negb (VALID_NEXT tp fperiod (tp_max_pos tp) 0).

(** Rule 2, [vel_0_pos <= tp->min_pos && !VALID_NEXT(tp->min_pos,0)]. *)
Definition stop_overshoot_min (tp : simple_tp_t) (fperiod : Q) : bool :=
  Qleb (vel_0_pos tp fperiod) (tp_min_pos tp)
  && negb (VALID_NEXT tp fperiod (tp_min_pos tp) 0).

(** Rule 3, input below the min limit or heading to it. *)
Definition heading_to_min (tp : simple_tp_t) (fperiod : Q) : bool :=
  Qltb (vel_match_in_pos tp fperiod) (tp_min_pos tp)
  || (Qleb (tp_pos_cmd tp) (tp_min_pos tp)
      && Qltb (vel_match_in_pos tp fperiod) (vel_match_out_pos tp fperiod)).

(** Rule 4, input above the max limit or heading to it. *)
Definition heading_to_max (tp : simple_tp_t) (fperiod : Q) : bool :=
  Qltb (tp_max_pos tp) (vel_match_in_pos tp fperiod)
  || (Qleb (tp_max_pos tp) (tp_pos_cmd tp)
      && Qltb (vel_match_out_pos tp fperiod) (vel_match_in_pos tp fperiod)).

(** Rule 5, [VALID_NEXT(tp->pos_cmd, in_vel)]. *)
Definition can_track (tp : simple_tp_t) (fperiod : Q) : bool :=
  VALID_NEXT tp fperiod (tp_pos_cmd tp) (in_vel tp fperiod).

Section Update.

(** [TINY_DP(max_acc, period)] is a macro of a header that is not part
    of the source tree: the update is parametric in it. *)
Variable TINY_DP : Q -> Q -> Q.

(** [SET_NEXT_STATE(out_pos, out_vel, in_pos)]: commit the three
    outputs, run the settle check and return.  At every use in the
    function the three arguments are values that the macro's own
    assignments do not change before they are read, so the macro is
    a function of the values. *)
Definition SET_NEXT_STATE (tp : simple_tp_t) (fperiod : Q)
    (out_pos out_vel in_pos : Q) : simple_tp_t :=
  let tp := set_curr_pos tp out_pos in
  let tp := set_out_vel_old tp out_vel in
  let tp := set_curr_vel tp out_vel in
  let tp := set_in_pos_old tp in_pos in
  let tiny_dp := fabs (TINY_DP (tp_max_acc tp) fperiod) in
  if Qltb (fabs (tp_curr_pos tp - tp_pos_cmd tp)) tiny_dp
  then set_active tp false
  else tp.

(** [simple_tp_update(tp, fperiod)]: the state after the call. *)
Definition simple_tp_update (tp : simple_tp_t) (fperiod : Q) : simple_tp_t :=
  let tp := set_active tp true in
  if negb (tp_enable tp) then
    let tp := set_pos_cmd tp (tp_curr_pos tp) in
    SET_NEXT_STATE tp fperiod (tp_curr_pos tp) 0 (tp_curr_pos tp)
  else if stop_overshoot_max tp fperiod then
    SET_NEXT_STATE tp fperiod (min_pos tp fperiod) (min_vel tp fperiod) (tp_pos_cmd tp)
  else if stop_overshoot_min tp fperiod then
    SET_NEXT_STATE tp fperiod (max_pos tp fperiod) (max_vel tp fperiod) (tp_pos_cmd tp)
  else if heading_to_min tp fperiod then
    if VALID_NEXT tp fperiod (tp_min_pos tp) 0
    then SET_NEXT_STATE tp fperiod (tp_min_pos tp) 0 (tp_pos_cmd tp)
    else SET_NEXT_STATE tp fperiod (min_pos tp fperiod) (min_vel tp fperiod) (tp_pos_cmd tp)
  else if heading_to_max tp fperiod then
    if VALID_NEXT tp fperiod (tp_max_pos tp) 0
    then SET_NEXT_STATE tp fperiod (tp_max_pos tp) 0 (tp_pos_cmd tp)
    else SET_NEXT_STATE tp fperiod (max_pos tp fperiod) (max_vel tp fperiod) (tp_pos_cmd tp)
  else if can_track tp fperiod then
    SET_NEXT_STATE tp fperiod (tp_pos_cmd tp) (in_vel tp fperiod) (tp_pos_cmd tp)
  else if Qltb (tp_pos_cmd tp) (tp_curr_pos tp) then
    if Qltb (vel_match_in_pos tp fperiod) (vel_match_out_pos tp fperiod)
    then SET_NEXT_STATE tp fperiod (min_pos tp fperiod) (min_vel tp fperiod) (tp_pos_cmd tp)
    else if tp_disallow_backoff tp
    then SET_NEXT_STATE tp fperiod (min_pos tp fperiod) (min_vel tp fperiod) (tp_pos_cmd tp)
    else SET_NEXT_STATE tp fperiod (max_pos tp fperiod) (max_vel tp fperiod) (tp_pos_cmd tp)
  else if Qltb (tp_curr_pos tp) (tp_pos_cmd tp) then
    if Qltb (vel_match_out_pos tp fperiod) (vel_match_in_pos tp fperiod)
    then SET_NEXT_STATE tp fperiod (max_pos tp fperiod) (max_vel tp fperiod) (tp_pos_cmd tp)
    else if tp_disallow_backoff tp
    then SET_NEXT_STATE tp fperiod (max_pos tp fperiod) (max_vel tp fperiod) (tp_pos_cmd tp)
    else SET_NEXT_STATE tp fperiod (min_pos tp fperiod) (min_vel tp fperiod) (tp_pos_cmd tp)
  else tp.

(** Repeated calls with the same period. *)
Fixpoint simple_tp_run (n : nat) (tp : simple_tp_t) (fperiod : Q) : simple_tp_t :=
  match n with
  | O => tp
  | S n' => simple_tp_run n' (simple_tp_update tp fperiod) fperiod
  end.

End Update.

(** Modelled from the spec: the macro [TINY_DP] of the header
    [simple_tp.h], which is not part of the source tree.  The spec calls it
    the tiny-displacement threshold derived from [max_acc] and [period],
    the minimum position change resolvable in one cycle given the
    acceleration limit, and gives no formula.  The instance below, a
    thousandth of the displacement [max_acc * period^2], only serves to
    evaluate concrete scenarios; every general statement is proved for an
    arbitrary macro. *)
Definition TINY_DP (max_acc period : Q) : Q :=
  max_acc * period * period * (1 # 1000).

(** No exit of the function is taken: the channel is enabled, rules 1-5
    do not fire, and the output is neither above nor below the command. *)
Definition falls_through (tp : simple_tp_t) (p : Q) : bool :=
  tp_enable tp
  && negb (stop_overshoot_max tp p) && negb (stop_overshoot_min tp p)
  && negb (heading_to_min tp p) && negb (heading_to_max tp p)
  && negb (can_track tp p)
  && negb (Qltb (tp_pos_cmd tp) (tp_curr_pos tp))
  && negb (Qltb (tp_curr_pos tp) (tp_pos_cmd tp)).

(** ** The scenarios used below *)

(** Channel of the spec's concrete scenario (limits 10, 100, -50, 50),
    at 49.95, close to the upper bound, and moving at full speed. *)
Definition tp_near_max (pos_cmd in_pos_old : Q) (act backoff : bool) : simple_tp_t :=
  mk_simple_tp pos_cmd 10 100 true 49.95 10 act in_pos_old 10 (-50) 50 backoff.

(** Same limits, one thousandth from the upper bound at full speed. *)
Definition tp_at_speed : simple_tp_t :=
  mk_simple_tp 0 10 100 true 49.999 10 false 0 10 (-50) 50 false.

(** Same limits, at rest on the command, which has just stepped there. *)
Definition tp_on_cmd : simple_tp_t :=
  mk_simple_tp 0 10 100 true 0 0 false 0.001 0 (-50) 50 false.

(** Same limits, moving at 5 while the command is put on the current
    position (a request to stay where the channel is). *)
Definition tp_stop_here : simple_tp_t :=
  mk_simple_tp 1 10 100 true 1 5 false 1 5 (-50) 50 false.

(** Same limits, disabled while moving and away from the command. *)
Definition tp_disabled : simple_tp_t :=
  mk_simple_tp 3 10 100 false 1 5 true 2 5 (-50) 50 false.

(** Same limits, at rest, the command moving slowly within reach. *)
Definition tp_tracking : simple_tp_t :=
  mk_simple_tp 0.00005 10 100 true 0 0 false 0 0 (-50) 50 false.

(** Same limits, the command on the upper bound but arriving so fast that
    its velocity-matched position is below the lower bound. *)
Definition tp_both_sides : simple_tp_t :=
  mk_simple_tp 50 10 100 true (-20) 0 false 50.11 0 (-50) 50 false.

(** Same limits with back-off disallowed, the output above a command that
    moves up quickly: the velocity match predicts an overshoot. *)
Definition tp_no_backoff : simple_tp_t :=
  mk_simple_tp 0 10 100 true 0.0001 0 false (-0.001) 0 (-50) 50 true.

(** The host's write [tp->enable = b]. *)
Definition set_enable (tp : simple_tp_t) (b : bool) : simple_tp_t :=
  mk_simple_tp (tp_pos_cmd tp) (tp_max_vel tp) (tp_max_acc tp) b
    (tp_curr_pos tp) (tp_curr_vel tp) (tp_active tp) (tp_in_pos_old tp)
    (tp_out_vel_old tp) (tp_min_pos tp) (tp_max_pos tp)
    (tp_disallow_backoff tp).

(** The mirror image of [tp_at_speed]: one thousandth from the lower
    bound at full speed downwards. *)
Definition tp_at_speed_down : simple_tp_t :=
  mk_simple_tp 0 10 100 true (-49.999) (-10) false 0 (-10) (-50) 50 false.

(** An enabled channel at rest on a command that is held within the
    bounds. *)
Definition resting_on_cmd (tp : simple_tp_t) : Prop :=
  tp_enable tp = true /\ 0 <= tp_max_vel tp /\ 0 < tp_max_acc tp
  /\ tp_min_pos tp <= tp_pos_cmd tp <= tp_max_pos tp
  /\ tp_curr_pos tp == tp_pos_cmd tp
  /\ tp_in_pos_old tp == tp_pos_cmd tp
  /\ tp_out_vel_old tp == 0.

(** An enabled channel at rest on its upper bound while the command is
    held beyond that bound. *)
Definition parked_at_max (tp : simple_tp_t) : Prop :=
  tp_enable tp = true /\ 0 <= tp_max_vel tp /\ 0 < tp_max_acc tp
  /\ tp_min_pos tp < tp_max_pos tp
  /\ tp_curr_pos tp == tp_max_pos tp
  /\ tp_max_pos tp < tp_pos_cmd tp
  /\ tp_in_pos_old tp == tp_pos_cmd tp
  /\ tp_out_vel_old tp == 0.

(** The same on the lower bound. *)
Definition parked_at_min (tp : simple_tp_t) : Prop :=
  tp_enable tp = true /\ 0 <= tp_max_vel tp /\ 0 < tp_max_acc tp
  /\ tp_min_pos tp < tp_max_pos tp
  /\ tp_curr_pos tp == tp_min_pos tp
  /\ tp_pos_cmd tp < tp_min_pos tp
  /\ tp_in_pos_old tp == tp_pos_cmd tp
  /\ tp_out_vel_old tp == 0.

(** Same limits as the other scenarios: at rest on a held command. *)
Definition tp_settled : simple_tp_t :=
  mk_simple_tp 7 10 100 true 7 0 true 7 0 (-50) 50 false.

(** Same limits: at rest on the upper bound, the command held at 100. *)
Definition tp_parked_max : simple_tp_t :=
  mk_simple_tp 100 10 100 true 50 0 false 100 0 (-50) 50 false.

(** Same limits: at rest on the lower bound, the command held at -100. *)
Definition tp_parked_min : simple_tp_t :=
  mk_simple_tp (-100) 10 100 true (-50) 0 false (-100) 0 (-50) 50 false.

(** The host's cycle over a sequence of commands: write [pos_cmd], call
    [simple_tp_update], once per command. *)
Fixpoint simple_tp_follow (tiny : Q -> Q -> Q) (cmds : list Q)
    (tp : simple_tp_t) (fperiod : Q) : simple_tp_t :=
  match cmds with
  | nil => tp
  | cons c cmds' =>
      simple_tp_follow tiny cmds'
        (simple_tp_update tiny (set_pos_cmd tp c) fperiod) fperiod
  end.

(** The limits are sound and both stored velocities respect [max_vel]. *)
Definition velocities_bounded (tp : simple_tp_t) : Prop :=
  0 <= tp_max_vel tp /\ 0 < tp_max_acc tp
  /\ fabs (tp_out_vel_old tp) <= tp_max_vel tp
  /\ fabs (tp_curr_vel tp) <= tp_max_vel tp.


(** The two situations in which the bounds are kept: the channel can come
    to rest within this period (its projected stop position with zero
    velocity passes [VALID_NEXT]), or it moves at no less than
    [sqrt 2 * max_acc * fperiod] and the reachable window still meets the
    bounds. *)
Definition stop_in_reach (tp : simple_tp_t) (p : Q) : Prop :=
  VALID_NEXT tp p (vel_0_pos tp p) 0 = true
  \/ (2 * (tp_max_acc tp * p) * (tp_max_acc tp * p)
      <= tp_out_vel_old tp * tp_out_vel_old tp
      /\ min_pos tp p <= tp_max_pos tp /\ tp_min_pos tp <= max_pos tp p).

(** Limits 10 and 100, the upper bound at 0.0002: moving up at 0.11,
    between one and [sqrt 2] acceleration steps, the command held at
    100. *)
Definition tp_between : simple_tp_t :=
  mk_simple_tp 100 10 100 true 0 0.11 false 100 0.11 (-50) 0.0002 false.

(** Same limits as the other scenarios: at rest just under the upper
    bound, the command within the bounds and coming down fast. *)
Definition tp_cmd_moving : simple_tp_t :=
  mk_simple_tp 49.99999 10 100 true 49.99992 0 false 50.0001 0 (-50) 50 false.

(** ** Comparisons and the clipped window *)

Lemma Qleb_true (x y : Q) : Qleb x y = true <-> x <= y.
Proof. unfold Qleb. apply Qle_bool_iff. Qed.

Lemma Qleb_false (x y : Q) : Qleb x y = false <-> y < x.
Proof.
  unfold Qleb. split; intro H.
  - apply Qnot_le_lt. intro L. apply Qle_bool_iff in L. congruence.
  - destruct (Qle_bool x y) eqn:E; [|reflexivity].
    apply Qle_bool_iff in E. lra.
Qed.

Lemma Qltb_true (x y : Q) : Qltb x y = true <-> x < y.
Proof.
  unfold Qltb. rewrite negb_true_iff. apply (Qleb_false y x).
Qed.

Lemma Qltb_false (x y : Q) : Qltb x y = false <-> y <= x.
Proof.
  unfold Qltb. rewrite negb_false_iff. apply (Qleb_true y x).
Qed.

(** Turn every boolean comparison among the hypotheses into its order
    statement. *)
Ltac order_hyps :=
  repeat match goal with
    | H : Qleb _ _ = true |- _ => apply Qleb_true in H
    | H : Qleb _ _ = false |- _ => apply Qleb_false in H
    | H : Qltb _ _ = true |- _ => apply Qltb_true in H
    | H : Qltb _ _ = false |- _ => apply Qltb_false in H
    end.

Lemma fmax_cases (x y : Q) : (x < y /\ fmax x y = y) \/ (y <= x /\ fmax x y = x).
Proof.
  unfold fmax. destruct (Qltb x y) eqn:E; order_hyps; auto.
Qed.

Lemma fmin_cases (x y : Q) : (y < x /\ fmin x y = y) \/ (x <= y /\ fmin x y = x).
Proof.
  unfold fmin. destruct (Qltb y x) eqn:E; order_hyps; auto.
Qed.

Lemma fabs_le (x y : Q) : fabs x <= y <-> - y <= x <= y.
Proof. unfold fabs. apply Qabs_Qle_condition. Qed.

(** The clipped velocity window lies inside [[-max_vel, max_vel]] and is
    not empty when the previous output velocity respects the limit. *)
Lemma min_vel_bounds (tp : simple_tp_t) (p : Q) :
  0 <= tp_max_vel tp -> 0 < tp_max_acc tp -> 0 < p ->
  fabs (tp_out_vel_old tp) <= tp_max_vel tp ->
  - tp_max_vel tp <= min_vel tp p /\ min_vel tp p <= tp_out_vel_old tp.
Proof.
  intros Hv Ha Hp Ho. apply fabs_le in Ho.
  assert (0 < tp_max_acc tp * p) by nra.
  unfold min_vel.
  destruct (fmax_cases (tp_out_vel_old tp - tp_max_acc tp * p) (- tp_max_vel tp))
    as [[L E]|[L E]]; rewrite E; lra.
Qed.

Lemma max_vel_bounds (tp : simple_tp_t) (p : Q) :
  0 <= tp_max_vel tp -> 0 < tp_max_acc tp -> 0 < p ->
  fabs (tp_out_vel_old tp) <= tp_max_vel tp ->
  tp_out_vel_old tp <= max_vel tp p /\ max_vel tp p <= tp_max_vel tp.
Proof.
  intros Hv Ha Hp Ho. apply fabs_le in Ho.
  assert (0 < tp_max_acc tp * p) by nra.
  unfold max_vel.
  destruct (fmin_cases (tp_out_vel_old tp + tp_max_acc tp * p) (tp_max_vel tp))
    as [[L E]|[L E]]; rewrite E; lra.
Qed.

Lemma VALID_NEXT_true (tp : simple_tp_t) (p pos vel : Q) :
  VALID_NEXT tp p pos vel = true <->
  (min_pos tp p <= pos <= max_pos tp p) /\ (min_vel tp p <= vel <= max_vel tp p).
Proof.
  unfold VALID_NEXT. rewrite !andb_true_iff, !Qleb_true. tauto.
Qed.

(** ** What [SET_NEXT_STATE] leaves in each field *)

(** Reduce field reads on field writes, and nothing else. *)
Ltac fields :=
  cbn [tp_pos_cmd tp_max_vel tp_max_acc tp_enable tp_curr_pos tp_curr_vel
       tp_active tp_in_pos_old tp_out_vel_old tp_min_pos tp_max_pos
       tp_disallow_backoff set_active set_pos_cmd set_curr_pos
       set_out_vel_old set_curr_vel set_in_pos_old].

Section Commit.

Variable tiny : Q -> Q -> Q.
Variables (tp : simple_tp_t) (p out_pos out_vel in_pos : Q).

Lemma SET_NEXT_STATE_eq :
  SET_NEXT_STATE tiny tp p out_pos out_vel in_pos =
  mk_simple_tp (tp_pos_cmd tp) (tp_max_vel tp) (tp_max_acc tp) (tp_enable tp)
    out_pos out_vel
    (if Qltb (fabs (out_pos - tp_pos_cmd tp)) (fabs (tiny (tp_max_acc tp) p))
     then false else tp_active tp)
    in_pos out_vel (tp_min_pos tp) (tp_max_pos tp) (tp_disallow_backoff tp).
Proof.
  unfold SET_NEXT_STATE. cbv zeta. fields.
  destruct (Qltb _ _); reflexivity.
Qed.

Lemma commit_curr_pos :
  tp_curr_pos (SET_NEXT_STATE tiny tp p out_pos out_vel in_pos) = out_pos.
Proof. rewrite SET_NEXT_STATE_eq. reflexivity. Qed.

Lemma commit_curr_vel :
  tp_curr_vel (SET_NEXT_STATE tiny tp p out_pos out_vel in_pos) = out_vel.
Proof. rewrite SET_NEXT_STATE_eq. reflexivity. Qed.

Lemma commit_out_vel_old :
  tp_out_vel_old (SET_NEXT_STATE tiny tp p out_pos out_vel in_pos) = out_vel.
Proof. rewrite SET_NEXT_STATE_eq. reflexivity. Qed.

Lemma commit_in_pos_old :
  tp_in_pos_old (SET_NEXT_STATE tiny tp p out_pos out_vel in_pos) = in_pos.
Proof. rewrite SET_NEXT_STATE_eq. reflexivity. Qed.

Lemma commit_pos_cmd :
  tp_pos_cmd (SET_NEXT_STATE tiny tp p out_pos out_vel in_pos) = tp_pos_cmd tp.
Proof. rewrite SET_NEXT_STATE_eq. reflexivity. Qed.

Lemma commit_enable :
  tp_enable (SET_NEXT_STATE tiny tp p out_pos out_vel in_pos) = tp_enable tp.
Proof. rewrite SET_NEXT_STATE_eq. reflexivity. Qed.

Lemma commit_max_acc :
  tp_max_acc (SET_NEXT_STATE tiny tp p out_pos out_vel in_pos) = tp_max_acc tp.
Proof. rewrite SET_NEXT_STATE_eq. reflexivity. Qed.

Lemma commit_active :
  tp_active (SET_NEXT_STATE tiny tp p out_pos out_vel in_pos) =
  if Qltb (fabs (out_pos - tp_pos_cmd tp)) (fabs (tiny (tp_max_acc tp) p))
  then false else tp_active tp.
Proof. rewrite SET_NEXT_STATE_eq. reflexivity. Qed.

End Commit.

(** The body of [simple_tp_update] with the conditions read on the state
    at entry: setting [active] first changes none of the fields they read. *)
Lemma simple_tp_update_eq (tiny : Q -> Q -> Q) (tp : simple_tp_t) (p : Q) :
  simple_tp_update tiny tp p =
  let tp1 := set_active tp true in
  if negb (tp_enable tp) then
    SET_NEXT_STATE tiny (set_pos_cmd tp1 (tp_curr_pos tp)) p
      (tp_curr_pos tp) 0 (tp_curr_pos tp)
  else if stop_overshoot_max tp p then
    SET_NEXT_STATE tiny tp1 p (min_pos tp p) (min_vel tp p) (tp_pos_cmd tp)
  else if stop_overshoot_min tp p then
    SET_NEXT_STATE tiny tp1 p (max_pos tp p) (max_vel tp p) (tp_pos_cmd tp)
  else if heading_to_min tp p then
    if VALID_NEXT tp p (tp_min_pos tp) 0
    then SET_NEXT_STATE tiny tp1 p (tp_min_pos tp) 0 (tp_pos_cmd tp)
    else SET_NEXT_STATE tiny tp1 p (min_pos tp p) (min_vel tp p) (tp_pos_cmd tp)
  else if heading_to_max tp p then
    if VALID_NEXT tp p (tp_max_pos tp) 0
    then SET_NEXT_STATE tiny tp1 p (tp_max_pos tp) 0 (tp_pos_cmd tp)
    else SET_NEXT_STATE tiny tp1 p (max_pos tp p) (max_vel tp p) (tp_pos_cmd tp)
  else if can_track tp p then
    SET_NEXT_STATE tiny tp1 p (tp_pos_cmd tp) (in_vel tp p) (tp_pos_cmd tp)
  else if Qltb (tp_pos_cmd tp) (tp_curr_pos tp) then
    if Qltb (vel_match_in_pos tp p) (vel_match_out_pos tp p)
    then SET_NEXT_STATE tiny tp1 p (min_pos tp p) (min_vel tp p) (tp_pos_cmd tp)
    else if tp_disallow_backoff tp
    then SET_NEXT_STATE tiny tp1 p (min_pos tp p) (min_vel tp p) (tp_pos_cmd tp)
    else SET_NEXT_STATE tiny tp1 p (max_pos tp p) (max_vel tp p) (tp_pos_cmd tp)
  else if Qltb (tp_curr_pos tp) (tp_pos_cmd tp) then
    if Qltb (vel_match_out_pos tp p) (vel_match_in_pos tp p)
    then SET_NEXT_STATE tiny tp1 p (max_pos tp p) (max_vel tp p) (tp_pos_cmd tp)
    else if tp_disallow_backoff tp
    then SET_NEXT_STATE tiny tp1 p (max_pos tp p) (max_vel tp p) (tp_pos_cmd tp)
    else SET_NEXT_STATE tiny tp1 p (min_pos tp p) (min_vel tp p) (tp_pos_cmd tp)
  else tp1.
Proof. reflexivity. Qed.

(** Split a goal about [simple_tp_update] into the exits of the function. *)
Ltac by_exit tp p :=
  rewrite simple_tp_update_eq; cbv zeta;
  destruct (tp_enable tp) eqn:Henable; cbn [negb];
  [ destruct (stop_overshoot_max tp p) eqn:Hstopmax;
    [ | destruct (stop_overshoot_min tp p) eqn:Hstopmin;
      [ | destruct (heading_to_min tp p) eqn:Hheadmin;
        [ destruct (VALID_NEXT tp p (tp_min_pos tp) 0) eqn:Hparkmin
        | destruct (heading_to_max tp p) eqn:Hheadmax;
          [ destruct (VALID_NEXT tp p (tp_max_pos tp) 0) eqn:Hparkmax
          | destruct (can_track tp p) eqn:Htrack;
            [ | destruct (Qltb (tp_pos_cmd tp) (tp_curr_pos tp)) eqn:Habove;
              [ destruct (Qltb (vel_match_in_pos tp p) (vel_match_out_pos tp p)) eqn:Hmatch;
                [ | destruct (tp_disallow_backoff tp) eqn:Hbackoff ]
              | destruct (Qltb (tp_curr_pos tp) (tp_pos_cmd tp)) eqn:Hbelow;
                [ destruct (Qltb (vel_match_out_pos tp p) (vel_match_in_pos tp p)) eqn:Hmatch;
                  [ | destruct (tp_disallow_backoff tp) eqn:Hbackoff ]
                | ] ] ] ] ] ] ]
  | ].

(** Rewrite the fields of a committed state. *)
Ltac commit_fields :=
  rewrite ?commit_curr_pos, ?commit_curr_vel, ?commit_out_vel_old,
    ?commit_in_pos_old, ?commit_pos_cmd.

(** ** The disabled path *)

Section Disabled.

Variable tiny : Q -> Q -> Q.

Lemma disabled_update_eq (tp : simple_tp_t) (p : Q) :
  tp_enable tp = false ->
  simple_tp_update tiny tp p =
  SET_NEXT_STATE tiny (set_pos_cmd (set_active tp true) (tp_curr_pos tp)) p
    (tp_curr_pos tp) 0 (tp_curr_pos tp).
Proof. intro He. rewrite simple_tp_update_eq, He. reflexivity. Qed.

Lemma disabled_update_fixed (tp : simple_tp_t) (p : Q) :
  tp_enable tp = false ->
  simple_tp_update tiny (simple_tp_update tiny tp p) p = simple_tp_update tiny tp p.
Proof.
  intro He. rewrite (disabled_update_eq tp p He).
  rewrite disabled_update_eq by (rewrite commit_enable; exact He).
  rewrite !SET_NEXT_STATE_eq. fields.
  destruct (Qltb _ _); reflexivity.
Qed.

Lemma run_fixed (tp : simple_tp_t) (p : Q) (n : nat) :
  simple_tp_update tiny tp p = tp -> simple_tp_run tiny n tp p = tp.
Proof.
  intro Hfix. induction n as [|n IH]; cbn [simple_tp_run].
  - reflexivity.
  - rewrite Hfix. exact IH.
Qed.

Lemma disabled_run_fixed (tp : simple_tp_t) (p : Q) (n : nat) :
  tp_enable tp = false ->
  simple_tp_run tiny (S n) tp p = simple_tp_update tiny tp p.
Proof.
  intro He. cbn [simple_tp_run].
  apply run_fixed, disabled_update_fixed, He.
Qed.

End Disabled.

(** ** Properties of the update step *)

(** C6.  Disabled path and idempotence: with [enable] false the call keeps
    [curr_pos], zeroes [curr_vel] and [out_vel_old] and overwrites
    [pos_cmd] and [in_pos_old] with [curr_pos], whatever the limits, the
    period and the previous velocities are; any number of repeated calls
    gives the same [curr_pos] and a zero velocity, and the state after the
    first call is a fixed point of further calls. *)
Theorem disabled_path_idempotent (tiny : Q -> Q -> Q) (tp : simple_tp_t) (p : Q) :
  tp_enable tp = false ->
  let tp' := simple_tp_update tiny tp p in
  (tp_curr_pos tp' = tp_curr_pos tp /\ tp_curr_vel tp' = 0
   /\ tp_out_vel_old tp' = 0 /\ tp_pos_cmd tp' = tp_curr_pos tp
   /\ tp_in_pos_old tp' = tp_curr_pos tp /\ tp_enable tp' = false)
  /\ (forall n : nat,
        tp_curr_pos (simple_tp_run tiny (S n) tp p) = tp_curr_pos tp
        /\ tp_curr_vel (simple_tp_run tiny (S n) tp p) = 0)
  /\ simple_tp_update tiny tp' p = tp'
  /\ (forall n : nat, simple_tp_run tiny n tp' p = tp').
Proof.
  intros He tp'.
  assert (Hfields : tp_curr_pos tp' = tp_curr_pos tp /\ tp_curr_vel tp' = 0
                    /\ tp_out_vel_old tp' = 0 /\ tp_pos_cmd tp' = tp_curr_pos tp
                    /\ tp_in_pos_old tp' = tp_curr_pos tp /\ tp_enable tp' = false).
  { subst tp'. rewrite (disabled_update_eq tiny tp p He), SET_NEXT_STATE_eq.
    fields. repeat split; try reflexivity. exact He. }
  split; [exact Hfields|]. split; [|split].
  - intro n. rewrite (disabled_run_fixed tiny tp p n He).
    split; apply Hfields.
  - apply disabled_update_fixed, He.
  - intro n. apply run_fixed, disabled_update_fixed, He.
Qed.

Lemma disabled_path_idempotent_witness :
  tp_enable tp_disabled = false
  /\ simple_tp_update TINY_DP (simple_tp_update TINY_DP tp_disabled 0.001) 0.001
     = simple_tp_update TINY_DP tp_disabled 0.001.
Proof.
  split.
  - reflexivity.
  - exact (proj1 (proj2 (proj2
      (disabled_path_idempotent TINY_DP tp_disabled 0.001 eq_refl)))).
Defined.

(** The configuration fields are never written, and [pos_cmd] only by a
    disabled call. *)
Lemma update_keeps_limits (tiny : Q -> Q -> Q) (tp : simple_tp_t) (p : Q) :
  let tp' := simple_tp_update tiny tp p in
  tp_enable tp' = tp_enable tp
  /\ tp_min_pos tp' = tp_min_pos tp /\ tp_max_pos tp' = tp_max_pos tp
  /\ tp_max_vel tp' = tp_max_vel tp /\ tp_max_acc tp' = tp_max_acc tp
  /\ tp_disallow_backoff tp' = tp_disallow_backoff tp
  /\ tp_pos_cmd tp' = (if tp_enable tp then tp_pos_cmd tp else tp_curr_pos tp).
Proof.
  cbv zeta. by_exit tp p; rewrite ?SET_NEXT_STATE_eq; fields;
    repeat split; congruence.
Qed.

(** C7, as amended.  Frame condition: the call never changes [enable],
    [min_pos], [max_pos], [max_vel], [max_acc] and [disallow_backoff];
    [pos_cmd] is unchanged by an enabled call and is overwritten with
    [curr_pos] by a disabled one.  ([curr_pos], [curr_vel], [in_pos_old],
    [out_vel_old] and [active] are the fields the call may write.) *)
Theorem update_frame (tiny : Q -> Q -> Q) (tp : simple_tp_t) (p : Q) :
  let tp' := simple_tp_update tiny tp p in
  tp_enable tp' = tp_enable tp
  /\ tp_min_pos tp' = tp_min_pos tp /\ tp_max_pos tp' = tp_max_pos tp
  /\ tp_max_vel tp' = tp_max_vel tp /\ tp_max_acc tp' = tp_max_acc tp
  /\ tp_disallow_backoff tp' = tp_disallow_backoff tp
  /\ tp_pos_cmd tp' = (if tp_enable tp then tp_pos_cmd tp else tp_curr_pos tp).
Proof. exact (update_keeps_limits tiny tp p). Qed.

(** C7 as stated fails: an enabled call rewrites [out_vel_old] (10 becomes
    9.9 in the stop-overshoot scenario), and a disabled call rewrites
    [pos_cmd] (3 becomes the current position 1). *)
Lemma update_frame_counterexample :
  ~ (tp_out_vel_old (simple_tp_update TINY_DP (tp_near_max 0 0 false false) 0.001)
     == tp_out_vel_old (tp_near_max 0 0 false false))
  /\ ~ (tp_pos_cmd (simple_tp_update TINY_DP tp_disabled 0.001)
        == tp_pos_cmd tp_disabled).
Proof.
  split; vm_compute; intro H; discriminate H.
Qed.

(** C9.  The stop-overshoot scenario: limits 10, 100, -50, 50, period
    0.001, the channel at 49.95 with previous output velocity 10.  For
    every command and previous command the projected stop position is
    50.46, parking on 50 is not a valid candidate, rule 1 fires and the
    call commits the minimum reachable candidate: velocity 9.9, position
    49.9599. *)
Theorem stop_overshoot_scenario (tiny : Q -> Q -> Q)
    (pos_cmd in_pos_old : Q) (act backoff : bool) :
  let tp := tp_near_max pos_cmd in_pos_old act backoff in
  let tp' := simple_tp_update tiny tp 0.001 in
  vel_0_pos tp 0.001 == 50.46
  /\ VALID_NEXT tp 0.001 (tp_max_pos tp) 0 = false
  /\ stop_overshoot_max tp 0.001 = true
  /\ tp_curr_vel tp' = min_vel tp 0.001 /\ tp_curr_pos tp' = min_pos tp 0.001
  /\ tp_curr_vel tp' == 9.9 /\ tp_curr_pos tp' == 49.9599.
Proof.
  intros tp tp'.
  assert (Hrule : stop_overshoot_max tp 0.001 = true) by (vm_compute; reflexivity).
  assert (Hupd : tp' = SET_NEXT_STATE tiny (set_active tp true) 0.001
                         (min_pos tp 0.001) (min_vel tp 0.001) (tp_pos_cmd tp)).
  { subst tp'. rewrite simple_tp_update_eq. cbv zeta.
    change (tp_enable tp) with true. cbn [negb]. rewrite Hrule. reflexivity. }
  split; [vm_compute; reflexivity|].
  split; [vm_compute; reflexivity|].
  split; [exact Hrule|].
  rewrite Hupd, commit_curr_vel, commit_curr_pos.
  repeat split; vm_compute; reflexivity.
Qed.

(** C4.  Direct tracking: on an enabled call on which none of the limit
    rules 1-4 fires and the pair (command, input velocity) passes
    [VALID_NEXT], the command is adopted exactly. *)
Theorem direct_tracking_exact (tiny : Q -> Q -> Q) (tp : simple_tp_t) (p : Q) :
  tp_enable tp = true ->
  stop_overshoot_max tp p = false -> stop_overshoot_min tp p = false ->
  heading_to_min tp p = false -> heading_to_max tp p = false ->
  VALID_NEXT tp p (tp_pos_cmd tp) (in_vel tp p) = true ->
  let tp' := simple_tp_update tiny tp p in
  tp_curr_pos tp' = tp_pos_cmd tp /\ tp_curr_vel tp' = in_vel tp p
  /\ tp_pos_cmd tp' = tp_pos_cmd tp /\ tp_curr_pos tp' = tp_pos_cmd tp'.
Proof.
  intros He H1 H2 H3 H4 H5. cbv zeta.
  rewrite simple_tp_update_eq. cbv zeta.
  unfold can_track. rewrite He, H1, H2, H3, H4, H5. cbn [negb].
  commit_fields. repeat split; reflexivity.
Qed.

Lemma direct_tracking_exact_witness :
  (tp_enable tp_tracking = true
   /\ stop_overshoot_max tp_tracking 0.001 = false
   /\ stop_overshoot_min tp_tracking 0.001 = false
   /\ heading_to_min tp_tracking 0.001 = false
   /\ heading_to_max tp_tracking 0.001 = false
   /\ VALID_NEXT tp_tracking 0.001 (tp_pos_cmd tp_tracking)
        (in_vel tp_tracking 0.001) = true)
  /\ tp_curr_pos (simple_tp_update TINY_DP tp_tracking 0.001) = 0.00005
  /\ tp_curr_vel (simple_tp_update TINY_DP tp_tracking 0.001)
     = in_vel tp_tracking 0.001.
Proof.
  pose proof (direct_tracking_exact TINY_DP tp_tracking 0.001
                eq_refl eq_refl eq_refl eq_refl eq_refl eq_refl) as H.
  cbv zeta in H. split; [repeat split; reflexivity|].
  split; [apply H | apply H].
Defined.

(** C8.  Back-off disallowed: on an enabled call with [disallow_backoff]
    set that is decided by a position-mismatch rule (rules 1-5 do not
    fire, output and command differ), the committed candidate is the
    minimum reachable pair when the output is above the command and the
    maximum reachable pair when it is below, whatever the velocity-match
    projections say. *)
Theorem disallow_backoff_never_reverses
    (tiny : Q -> Q -> Q) (tp : simple_tp_t) (p : Q) :
  tp_enable tp = true -> tp_disallow_backoff tp = true ->
  stop_overshoot_max tp p = false -> stop_overshoot_min tp p = false ->
  heading_to_min tp p = false -> heading_to_max tp p = false ->
  can_track tp p = false ->
  ~ tp_curr_pos tp == tp_pos_cmd tp ->
  let tp' := simple_tp_update tiny tp p in
  (tp_pos_cmd tp < tp_curr_pos tp
   /\ tp_curr_pos tp' = min_pos tp p /\ tp_curr_vel tp' = min_vel tp p)
  \/ (tp_curr_pos tp < tp_pos_cmd tp
      /\ tp_curr_pos tp' = max_pos tp p /\ tp_curr_vel tp' = max_vel tp p).
Proof.
  intros He Hb H1 H2 H3 H4 H5 Hne. cbv zeta.
  rewrite simple_tp_update_eq. cbv zeta.
  rewrite He, Hb, H1, H2, H3, H4, H5. cbn [negb].
  destruct (Qltb (tp_pos_cmd tp) (tp_curr_pos tp)) eqn:Habove.
  - left. apply Qltb_true in Habove.
    destruct (Qltb (vel_match_in_pos tp p) (vel_match_out_pos tp p));
      commit_fields; repeat split; auto.
  - destruct (Qltb (tp_curr_pos tp) (tp_pos_cmd tp)) eqn:Hbelow.
    + right. apply Qltb_true in Hbelow.
      destruct (Qltb (vel_match_out_pos tp p) (vel_match_in_pos tp p));
        commit_fields; repeat split; auto.
    + exfalso. apply Hne. order_hyps. apply Qle_antisym; assumption.
Qed.

(** The scenario [tp_no_backoff] is decided by the overshoot branch of
    rule 6: the input's velocity-matched position is not below the
    output's, and the call still commits the minimum reachable pair. *)
Lemma disallow_backoff_never_reverses_witness :
  Qltb (vel_match_in_pos tp_no_backoff 0.001)
       (vel_match_out_pos tp_no_backoff 0.001) = false
  /\ tp_pos_cmd tp_no_backoff < tp_curr_pos tp_no_backoff
  /\ tp_curr_pos (simple_tp_update TINY_DP tp_no_backoff 0.001)
     = min_pos tp_no_backoff 0.001
  /\ tp_curr_vel (simple_tp_update TINY_DP tp_no_backoff 0.001)
     = min_vel tp_no_backoff 0.001.
Proof.
  assert (Hne : ~ tp_curr_pos tp_no_backoff == tp_pos_cmd tp_no_backoff).
  { vm_compute. intro H. discriminate H. }
  split; [reflexivity|].
  destruct (disallow_backoff_never_reverses TINY_DP tp_no_backoff 0.001
              eq_refl eq_refl eq_refl eq_refl eq_refl eq_refl eq_refl Hne)
    as [H|[Hlt _]].
  - exact H.
  - exfalso. apply Qltb_true in Hlt. vm_compute in Hlt. discriminate Hlt.
Defined.

(** C10.  Priority of the min side: on an enabled call on which the
    conditions of rule 3 and of rule 4 both hold and rules 1-2 do not
    fire, the call commits the outcome of rule 3: parked on [min_pos]
    with zero velocity when that candidate is valid, the minimum
    reachable pair otherwise. *)
Theorem min_side_priority (tiny : Q -> Q -> Q) (tp : simple_tp_t) (p : Q) :
  tp_enable tp = true ->
  stop_overshoot_max tp p = false -> stop_overshoot_min tp p = false ->
  heading_to_min tp p = true -> heading_to_max tp p = true ->
  let tp' := simple_tp_update tiny tp p in
  (VALID_NEXT tp p (tp_min_pos tp) 0 = true
   /\ tp_curr_pos tp' = tp_min_pos tp /\ tp_curr_vel tp' = 0)
  \/ (VALID_NEXT tp p (tp_min_pos tp) 0 = false
      /\ tp_curr_pos tp' = min_pos tp p /\ tp_curr_vel tp' = min_vel tp p).
Proof.
  intros He H1 H2 H3 H4. cbv zeta.
  rewrite simple_tp_update_eq. cbv zeta.
  rewrite He, H1, H2, H3. cbn [negb].
  destruct (VALID_NEXT tp p (tp_min_pos tp) 0); [left|right];
    commit_fields; repeat split; reflexivity.
Qed.

(** In [tp_both_sides] the bounds are consistent, both conditions hold
    and the channel heads to the min side although the command sits on
    the upper bound. *)
Lemma min_side_priority_witness :
  tp_min_pos tp_both_sides <= tp_max_pos tp_both_sides
  /\ heading_to_min tp_both_sides 0.001 = true
  /\ heading_to_max tp_both_sides 0.001 = true
  /\ tp_curr_pos (simple_tp_update TINY_DP tp_both_sides 0.001)
     = min_pos tp_both_sides 0.001
  /\ tp_curr_vel (simple_tp_update TINY_DP tp_both_sides 0.001)
     = min_vel tp_both_sides 0.001.
Proof.
  split; [apply Qleb_true; reflexivity|].
  split; [reflexivity|]. split; [reflexivity|].
  destruct (min_side_priority TINY_DP tp_both_sides 0.001
              eq_refl eq_refl eq_refl eq_refl eq_refl) as [[Hv _]|[_ H]].
  - vm_compute in Hv. discriminate Hv.
  - exact H.
Defined.

(** C2.  Velocity bound: with [max_vel >= 0], [max_acc > 0], a positive
    period and both stored velocities within the limit before the call,
    the output velocity is within the limit after it (and so is
    [out_vel_old], so the hypothesis holds again for the next call).  The
    velocity is the old one when no exit commits, and otherwise zero, an
    extreme of the clipped window, or an input velocity that passed
    [VALID_NEXT]. *)
Theorem velocity_bound_preserved (tiny : Q -> Q -> Q) (tp : simple_tp_t) (p : Q) :
  0 <= tp_max_vel tp -> 0 < tp_max_acc tp -> 0 < p ->
  fabs (tp_out_vel_old tp) <= tp_max_vel tp ->
  fabs (tp_curr_vel tp) <= tp_max_vel tp ->
  let tp' := simple_tp_update tiny tp p in
  fabs (tp_curr_vel tp') <= tp_max_vel tp'
  /\ fabs (tp_out_vel_old tp') <= tp_max_vel tp'
  /\ (tp' = set_active tp true
      \/ tp_curr_vel tp' = 0
      \/ tp_curr_vel tp' = min_vel tp p
      \/ tp_curr_vel tp' = max_vel tp p
      \/ (tp_curr_vel tp' = in_vel tp p
          /\ VALID_NEXT tp p (tp_pos_cmd tp) (in_vel tp p) = true)).
Proof.
  intros Hv Ha Hp Ho Hc tp'.
  destruct (update_keeps_limits tiny tp p) as (_ & _ & _ & Hmv & _).
  fold tp' in Hmv. rewrite Hmv.
  destruct (min_vel_bounds tp p Hv Ha Hp Ho) as [Hmin1 Hmin2].
  destruct (max_vel_bounds tp p Hv Ha Hp Ho) as [Hmax1 Hmax2].
  assert (Hzero : fabs 0 <= tp_max_vel tp) by (apply fabs_le; lra).
  assert (Hlo : fabs (min_vel tp p) <= tp_max_vel tp) by (apply fabs_le; lra).
  assert (Hhi : fabs (max_vel tp p) <= tp_max_vel tp) by (apply fabs_le; lra).
  subst tp'. by_exit tp p;
    rewrite ?commit_curr_vel, ?commit_out_vel_old;
    try (split; [assumption | split; [assumption | tauto]]).
  (* what is left is rule 5: the input velocity is inside the window *)
  unfold can_track in Htrack. pose proof Htrack as Hvalid.
  apply VALID_NEXT_true in Hvalid. destruct Hvalid as [_ [Hl Hu]].
  assert (fabs (in_vel tp p) <= tp_max_vel tp) by (apply fabs_le; lra).
  split; [assumption | split; [assumption | tauto]].
Qed.

Lemma velocity_bound_preserved_witness :
  (0 <= tp_max_vel tp_tracking /\ 0 < tp_max_acc tp_tracking /\ 0 < 0.001
   /\ fabs (tp_out_vel_old tp_tracking) <= tp_max_vel tp_tracking
   /\ fabs (tp_curr_vel tp_tracking) <= tp_max_vel tp_tracking)
  /\ fabs (tp_curr_vel (simple_tp_update TINY_DP tp_tracking 0.001))
     <= tp_max_vel (simple_tp_update TINY_DP tp_tracking 0.001).
Proof.
  assert (H1 : 0 <= tp_max_vel tp_tracking) by (apply Qleb_true; reflexivity).
  assert (H2 : 0 < tp_max_acc tp_tracking) by (apply Qltb_true; reflexivity).
  assert (H3 : 0 < 0.001) by (apply Qltb_true; reflexivity).
  assert (H4 : fabs (tp_out_vel_old tp_tracking) <= tp_max_vel tp_tracking)
    by (apply Qleb_true; reflexivity).
  assert (H5 : fabs (tp_curr_vel tp_tracking) <= tp_max_vel tp_tracking)
    by (apply Qleb_true; reflexivity).
  split; [repeat split; assumption|].
  exact (proj1 (velocity_bound_preserved TINY_DP tp_tracking 0.001 H1 H2 H3 H4 H5)).
Defined.

(** The position a call leaves in [curr_pos]: the old one (disabled call,
    or no exit committed), one of the two bounds (parking), the command
    that passed [VALID_NEXT], or an extreme of the reachable window. *)
Lemma committed_position_cases (tiny : Q -> Q -> Q) (tp : simple_tp_t) (p : Q) :
  let tp' := simple_tp_update tiny tp p in
  tp_curr_pos tp' = tp_curr_pos tp
  \/ tp_curr_pos tp' = tp_min_pos tp
  \/ tp_curr_pos tp' = tp_max_pos tp
  \/ tp_curr_pos tp' = min_pos tp p
  \/ tp_curr_pos tp' = max_pos tp p
  \/ (tp_curr_pos tp' = tp_pos_cmd tp
      /\ VALID_NEXT tp p (tp_pos_cmd tp) (in_vel tp p) = true).
Proof.
  cbv zeta. by_exit tp p; rewrite ?commit_curr_pos; fields; tauto.
Qed.

(** The reachable window is not empty. *)
Lemma window_ordered (tp : simple_tp_t) (p : Q) :
  0 <= tp_max_vel tp -> 0 < tp_max_acc tp -> 0 < p ->
  fabs (tp_out_vel_old tp) <= tp_max_vel tp ->
  min_pos tp p <= max_pos tp p.
Proof.
  intros Hv Ha Hp Ho.
  destruct (min_vel_bounds tp p Hv Ha Hp Ho) as [_ Hmin].
  destruct (max_vel_bounds tp p Hv Ha Hp Ho) as [Hmax _].
  unfold min_pos, max_pos.
  assert (min_vel tp p * p <= max_vel tp p * p) by nra.
  lra.
Qed.

(** Whatever the command does, the position after the call is within
    the bounds or within the window reachable in one period from the old
    position: with [min_pos <= max_pos], [max_vel >= 0], [max_acc > 0], a
    positive period, [curr_pos] within the bounds and the previous output
    velocity within the limit. *)
Theorem position_within_bounds_or_window
    (tiny : Q -> Q -> Q) (tp : simple_tp_t) (p : Q) :
  tp_min_pos tp <= tp_max_pos tp ->
  0 <= tp_max_vel tp -> 0 < tp_max_acc tp -> 0 < p ->
  tp_min_pos tp <= tp_curr_pos tp <= tp_max_pos tp ->
  fabs (tp_out_vel_old tp) <= tp_max_vel tp ->
  let tp' := simple_tp_update tiny tp p in
  tp_min_pos tp' <= tp_curr_pos tp' <= tp_max_pos tp'
  \/ min_pos tp p <= tp_curr_pos tp' <= max_pos tp p.
Proof.
  intros Hb Hv Ha Hp Hc Ho tp'.
  destruct (update_keeps_limits tiny tp p) as (_ & Hmin & Hmax & _).
  fold tp' in Hmin, Hmax. rewrite Hmin, Hmax.
  pose proof (window_ordered tp p Hv Ha Hp Ho) as Hw.
  destruct (committed_position_cases tiny tp p)
    as [E|[E|[E|[E|[E|[E Hvalid]]]]]]; fold tp' in E; rewrite E.
  - left. exact Hc.
  - left. split; [apply Qle_refl | exact Hb].
  - left. split; [exact Hb | apply Qle_refl].
  - right. split; [apply Qle_refl | exact Hw].
  - right. split; [exact Hw | apply Qle_refl].
  - right. apply VALID_NEXT_true in Hvalid. apply Hvalid.
Qed.

(** At [tp_at_speed] the hypotheses hold and it is the window, not the
    bounds, that contains the new position. *)
Lemma position_within_bounds_or_window_witness :
  let tp := tp_at_speed in
  let tp' := simple_tp_update TINY_DP tp 0.001 in
  (tp_min_pos tp <= tp_max_pos tp /\ 0 <= tp_max_vel tp /\ 0 < tp_max_acc tp
   /\ 0 < 0.001 /\ tp_min_pos tp <= tp_curr_pos tp <= tp_max_pos tp
   /\ fabs (tp_out_vel_old tp) <= tp_max_vel tp)
  /\ (tp_min_pos tp' <= tp_curr_pos tp' <= tp_max_pos tp'
      \/ min_pos tp 0.001 <= tp_curr_pos tp' <= max_pos tp 0.001).
Proof.
  cbv zeta.
  assert (H1 : tp_min_pos tp_at_speed <= tp_max_pos tp_at_speed)
    by (apply Qleb_true; reflexivity).
  assert (H2 : 0 <= tp_max_vel tp_at_speed) by (apply Qleb_true; reflexivity).
  assert (H3 : 0 < tp_max_acc tp_at_speed) by (apply Qltb_true; reflexivity).
  assert (H4 : 0 < 0.001) by (apply Qltb_true; reflexivity).
  assert (H5 : tp_min_pos tp_at_speed <= tp_curr_pos tp_at_speed
               <= tp_max_pos tp_at_speed)
    by (split; apply Qleb_true; reflexivity).
  assert (H6 : fabs (tp_out_vel_old tp_at_speed) <= tp_max_vel tp_at_speed)
    by (apply Qleb_true; reflexivity).
  split; [repeat split; (assumption || apply H5)|].
  exact (position_within_bounds_or_window TINY_DP tp_at_speed 0.001
           H1 H2 H3 H4 H5 H6).
Defined.

(** So the bounds are kept whenever the whole reachable window lies
    within them. *)
Lemma position_bound_when_window_inside
    (tiny : Q -> Q -> Q) (tp : simple_tp_t) (p : Q) :
  tp_min_pos tp <= tp_max_pos tp ->
  0 <= tp_max_vel tp -> 0 < tp_max_acc tp -> 0 < p ->
  tp_min_pos tp <= tp_curr_pos tp <= tp_max_pos tp ->
  fabs (tp_out_vel_old tp) <= tp_max_vel tp ->
  tp_min_pos tp <= min_pos tp p -> max_pos tp p <= tp_max_pos tp ->
  let tp' := simple_tp_update tiny tp p in
  tp_min_pos tp' <= tp_curr_pos tp' <= tp_max_pos tp'.
Proof.
  intros Hb Hv Ha Hp Hc Ho Hlo Hhi tp'.
  destruct (update_keeps_limits tiny tp p) as (_ & Hmin & Hmax & _).
  fold tp' in Hmin, Hmax. rewrite Hmin, Hmax.
  pose proof (window_ordered tp p Hv Ha Hp Ho) as Hw.
  destruct (committed_position_cases tiny tp p)
    as [E|[E|[E|[E|[E|[E Hvalid]]]]]]; fold tp' in E; rewrite E;
    try lra.
  apply VALID_NEXT_true in Hvalid. lra.
Qed.


(** The same happens on states the function reaches by itself.  From
    rest at 0, with the command held at 100 and the upper bound at
    0.00035, the first two calls accelerate (rule 4, the bound is not yet
    reachable), the third brakes (rule 1) and still lands on 0.0004,
    beyond the bound. *)
Lemma overshoot_from_rest :
  let tp0 := mk_simple_tp 100 10 100 true 0 0 false 100 0 (-50) 0.00035 false in
  let tp2 := simple_tp_run TINY_DP 2 tp0 0.001 in
  let tp3 := simple_tp_update TINY_DP tp2 0.001 in
  (tp_min_pos tp2 <= tp_curr_pos tp2 <= tp_max_pos tp2
   /\ fabs (tp_out_vel_old tp2) <= tp_max_vel tp2)
  /\ stop_overshoot_max tp2 0.001 = true
  /\ tp_curr_pos tp3 == 0.0004
  /\ tp_max_pos tp3 < tp_curr_pos tp3.
Proof.
  cbv zeta. split; [|split; [|split]].
  - repeat split; apply Qleb_true; vm_compute; reflexivity.
  - vm_compute. reflexivity.
  - vm_compute. reflexivity.
  - apply Qltb_true. vm_compute. reflexivity.
Qed.

(** ** The settle flag and the call that commits nothing *)

Section Settle.

Variable tiny : Q -> Q -> Q.

Lemma falls_through_eq (tp : simple_tp_t) (p : Q) :
  falls_through tp p = true ->
  simple_tp_update tiny tp p = set_active tp true.
Proof.
  unfold falls_through. rewrite !andb_true_iff, !negb_true_iff.
  intros [[[[[[[He H1] H2] H3] H4] H5] H6] H7].
  rewrite simple_tp_update_eq. cbv zeta.
  rewrite He, H1, H2, H3, H4, H5, H6, H7. reflexivity.
Qed.

Lemma falls_through_on_cmd (tp : simple_tp_t) (p : Q) :
  falls_through tp p = true -> tp_curr_pos tp == tp_pos_cmd tp.
Proof.
  unfold falls_through. rewrite !andb_true_iff, !negb_true_iff.
  intros [[_ H6] H7]. order_hyps. apply Qle_antisym; assumption.
Qed.

(** A call that commits nothing leaves a state on which the next call,
    with the same command, commits nothing either. *)
Lemma falls_through_stuck (tp : simple_tp_t) (p : Q) (n : nat) :
  falls_through tp p = true ->
  simple_tp_run tiny (S n) tp p = set_active tp true.
Proof.
  intro Hf. cbn [simple_tp_run]. rewrite (falls_through_eq tp p Hf).
  apply run_fixed. apply (falls_through_eq (set_active tp true) p Hf).
Qed.

(** Every exit that commits runs the settle test: the flag is cleared
    exactly when the gap to the command is under the threshold. *)
Lemma settle_flag_on_commit (tp : simple_tp_t) (p : Q) :
  falls_through tp p = false ->
  let tp' := simple_tp_update tiny tp p in
  tp_active tp' = false <->
  fabs (tp_curr_pos tp' - tp_pos_cmd tp') < fabs (tiny (tp_max_acc tp') p).
Proof.
  intros Hf. cbv zeta. revert Hf. unfold falls_through.
  by_exit tp p; cbn [negb andb]; intro Hf; try discriminate Hf;
    rewrite ?commit_active, ?commit_curr_pos, ?commit_pos_cmd,
      ?commit_max_acc; fields;
    match goal with
    | |- context [if Qltb (fabs ?gap) ?thr then _ else _] =>
        destruct (Qltb (fabs gap) thr) eqn:E;
        [ apply Qltb_true in E; split; [intros _; exact E | reflexivity]
        | apply Qltb_false in E; split; [discriminate | intro L; lra] ]
    end.
Qed.

End Settle.

(** C3 fails on the code.  [tp_stop_here]: an enabled channel moving at 5
    whose command is put on its current position.  Rules 1-5 do not fire
    (standing still is not reachable in one period), the output is neither
    above nor below the command, so the function returns past its last
    [if] without [SET_NEXT_STATE].  Whatever the threshold macro is, the
    gap to the command is exactly zero and [active] is 1; the stale
    velocity 5 stays, and every further call with the same command does
    the same.  With the header's threshold the gap is under it. *)
Theorem settle_flag_missed_without_commit :
  let tp := tp_stop_here in
  (tp_enable tp = true /\ 0 < tp_max_acc tp /\ 0 < 0.001)
  /\ falls_through tp 0.001 = true
  /\ (forall tiny : Q -> Q -> Q,
        let tp' := simple_tp_update tiny tp 0.001 in
        tp_active tp' = true
        /\ fabs (tp_curr_pos tp' - tp_pos_cmd tp') == 0
        /\ tp_curr_pos tp' = tp_curr_pos tp /\ tp_curr_vel tp' = 5
        /\ (forall n : nat, simple_tp_run tiny (S n) tp 0.001 = tp'))
  /\ (let tp' := simple_tp_update TINY_DP tp 0.001 in
      fabs (tp_curr_pos tp' - tp_pos_cmd tp')
      < fabs (TINY_DP (tp_max_acc tp') 0.001)).
Proof.
  cbv zeta.
  assert (Hf : falls_through tp_stop_here 0.001 = true) by reflexivity.
  split; [|split; [exact Hf|split]].
  - repeat split; reflexivity.
  - intro tiny. rewrite (falls_through_eq tiny _ _ Hf).
    split; [reflexivity|]. split; [reflexivity|].
    split; [reflexivity|]. split; [reflexivity|].
    intro n. apply falls_through_stuck, Hf.
  - rewrite (falls_through_eq TINY_DP _ _ Hf). apply Qltb_true. reflexivity.
Qed.

(** C5.  There are enabled inputs on which no rule of the cascade fires.
    In [tp_on_cmd] the output is exactly on the command, the command has
    just stepped there so that its velocity is outside the reachable
    window, and no limit rule fires: whatever the threshold macro is, the
    call leaves [curr_pos], [curr_vel], [out_vel_old] and [in_pos_old] as
    they were and returns with [active] set, although the gap to the
    command is zero and under the threshold. *)
Theorem fall_through_commits_nothing :
  exists (tp : simple_tp_t) (p : Q),
    (0 < p /\ tp_enable tp = true /\ tp_active tp = false
     /\ tp_curr_pos tp = tp_pos_cmd tp)
    /\ (stop_overshoot_max tp p = false /\ stop_overshoot_min tp p = false
        /\ heading_to_min tp p = false /\ heading_to_max tp p = false
        /\ VALID_NEXT tp p (tp_pos_cmd tp) (in_vel tp p) = false)
    /\ (forall tiny : Q -> Q -> Q,
          let tp' := simple_tp_update tiny tp p in
          tp' = set_active tp true
          /\ tp_curr_pos tp' = tp_curr_pos tp /\ tp_curr_vel tp' = tp_curr_vel tp
          /\ tp_out_vel_old tp' = tp_out_vel_old tp
          /\ tp_in_pos_old tp' = tp_in_pos_old tp
          /\ tp_active tp' = true
          /\ tp_curr_pos tp' = tp_pos_cmd tp')
    /\ fabs (tp_curr_pos tp - tp_pos_cmd tp) < fabs (TINY_DP (tp_max_acc tp) p).
Proof.
  exists tp_on_cmd, 0.001.
  assert (Hf : falls_through tp_on_cmd 0.001 = true) by reflexivity.
  split; [|split; [|split]].
  - repeat split; reflexivity.
  - repeat split; reflexivity.
  - intro tiny. cbv zeta. rewrite (falls_through_eq tiny _ _ Hf).
    repeat split; reflexivity.
  - apply Qltb_true. reflexivity.
Qed.

(** * Further properties of the update step *)

From Stdlib Require Import Qfield.

(** ** Every committed pair is a valid candidate *)

Section Window.

Variable tiny : Q -> Q -> Q.
Variables (tp : simple_tp_t) (p : Q).

Hypothesis max_vel_nonneg : 0 <= tp_max_vel tp.
Hypothesis max_acc_pos : 0 < tp_max_acc tp.
Hypothesis period_pos : 0 < p.
Hypothesis out_vel_old_bounded : fabs (tp_out_vel_old tp) <= tp_max_vel tp.

(** The clipped window stays within one acceleration step of the previous
    output velocity. *)
Lemma window_within_acc :
  tp_out_vel_old tp - tp_max_acc tp * p <= min_vel tp p
  /\ max_vel tp p <= tp_out_vel_old tp + tp_max_acc tp * p.
Proof.
  unfold min_vel, max_vel.
  destruct (fmax_cases (tp_out_vel_old tp - tp_max_acc tp * p) (- tp_max_vel tp))
    as [[L1 E1]|[L1 E1]]; rewrite E1;
  destruct (fmin_cases (tp_out_vel_old tp + tp_max_acc tp * p) (tp_max_vel tp))
    as [[L2 E2]|[L2 E2]]; rewrite E2; lra.
Qed.

(** An enabled call that takes an exit commits a pair inside the window
    reachable in one period. *)
Lemma commit_in_window :
  tp_enable tp = true -> falls_through tp p = false ->
  let tp' := simple_tp_update tiny tp p in
  (min_pos tp p <= tp_curr_pos tp' <= max_pos tp p)
  /\ (min_vel tp p <= tp_curr_vel tp' <= max_vel tp p).
Proof.
  intros He Hf. cbv zeta.
  pose proof (window_ordered tp p max_vel_nonneg max_acc_pos period_pos
                out_vel_old_bounded) as Hw.
  destruct (min_vel_bounds tp p max_vel_nonneg max_acc_pos period_pos
              out_vel_old_bounded) as [_ Hlo].
  destruct (max_vel_bounds tp p max_vel_nonneg max_acc_pos period_pos
              out_vel_old_bounded) as [Hhi _].
  assert (Hv : min_vel tp p <= max_vel tp p) by lra.
  revert Hf He. unfold falls_through.
  by_exit tp p; cbn [negb andb]; intros Hf He; try discriminate;
    rewrite ?commit_curr_pos, ?commit_curr_vel;
    try (split; split; (apply Qle_refl || assumption));
    try (apply VALID_NEXT_true; assumption).
Qed.

End Window.

(** Whatever exit an enabled call takes, the pair it commits passes
    [VALID_NEXT]: the extremes of the window, a bound it parks on and a
    tracked command alike are reachable in one period. *)
Theorem committed_pair_is_valid (tiny : Q -> Q -> Q) (tp : simple_tp_t) (p : Q) :
  0 <= tp_max_vel tp -> 0 < tp_max_acc tp -> 0 < p ->
  fabs (tp_out_vel_old tp) <= tp_max_vel tp ->
  tp_enable tp = true -> falls_through tp p = false ->
  let tp' := simple_tp_update tiny tp p in
  VALID_NEXT tp p (tp_curr_pos tp') (tp_curr_vel tp') = true.
Proof.
  intros Hv Ha Hp Ho He Hf tp'. apply VALID_NEXT_true.
  exact (commit_in_window tiny tp p Hv Ha Hp Ho He Hf).
Qed.

Lemma committed_pair_is_valid_witness :
  let tp' := simple_tp_update TINY_DP (tp_near_max 0 0 false false) 0.001 in
  VALID_NEXT (tp_near_max 0 0 false false) 0.001 (tp_curr_pos tp') (tp_curr_vel tp') = true.
Proof.
  assert (H1 : 0 <= tp_max_vel (tp_near_max 0 0 false false)) by (apply Qleb_true; reflexivity).
  assert (H2 : 0 < tp_max_acc (tp_near_max 0 0 false false)) by (apply Qltb_true; reflexivity).
  assert (H3 : 0 < 0.001) by (apply Qltb_true; reflexivity).
  assert (H4 : fabs (tp_out_vel_old (tp_near_max 0 0 false false)) <= tp_max_vel (tp_near_max 0 0 false false))
    by (apply Qleb_true; reflexivity).
  exact (committed_pair_is_valid TINY_DP (tp_near_max 0 0 false false) 0.001
           H1 H2 H3 H4 eq_refl eq_refl).
Defined.

(** The acceleration limit: on an enabled call that takes an exit the
    output velocity differs from the previous output velocity by at most
    [max_acc * fperiod]. *)
Theorem acceleration_limit_respected
    (tiny : Q -> Q -> Q) (tp : simple_tp_t) (p : Q) :
  0 <= tp_max_vel tp -> 0 < tp_max_acc tp -> 0 < p ->
  fabs (tp_out_vel_old tp) <= tp_max_vel tp ->
  tp_enable tp = true -> falls_through tp p = false ->
  let tp' := simple_tp_update tiny tp p in
  fabs (tp_curr_vel tp' - tp_out_vel_old tp) <= tp_max_acc tp * p.
Proof.
  intros Hv Ha Hp Ho He Hf tp'.
  destruct (commit_in_window tiny tp p Hv Ha Hp Ho He Hf) as [_ Hw].
  fold tp' in Hw.
  destruct (window_within_acc tp p) as [Hlo Hhi].
  apply fabs_le. lra.
Qed.

Lemma acceleration_limit_respected_witness :
  let tp' := simple_tp_update TINY_DP (tp_near_max 0 0 false false) 0.001 in
  fabs (tp_curr_vel tp' - tp_out_vel_old (tp_near_max 0 0 false false))
  <= tp_max_acc (tp_near_max 0 0 false false) * 0.001.
Proof.
  assert (H1 : 0 <= tp_max_vel (tp_near_max 0 0 false false)) by (apply Qleb_true; reflexivity).
  assert (H2 : 0 < tp_max_acc (tp_near_max 0 0 false false)) by (apply Qltb_true; reflexivity).
  assert (H3 : 0 < 0.001) by (apply Qltb_true; reflexivity).
  assert (H4 : fabs (tp_out_vel_old (tp_near_max 0 0 false false)) <= tp_max_vel (tp_near_max 0 0 false false))
    by (apply Qleb_true; reflexivity).
  exact (acceleration_limit_respected TINY_DP (tp_near_max 0 0 false false) 0.001
           H1 H2 H3 H4 eq_refl eq_refl).
Defined.

(** The velocity limit on positions: no call, enabled or not, moves
    [curr_pos] by more than [max_vel * fperiod]. *)
Theorem step_within_max_vel (tiny : Q -> Q -> Q) (tp : simple_tp_t) (p : Q) :
  0 <= tp_max_vel tp -> 0 < tp_max_acc tp -> 0 < p ->
  fabs (tp_out_vel_old tp) <= tp_max_vel tp ->
  let tp' := simple_tp_update tiny tp p in
  fabs (tp_curr_pos tp' - tp_curr_pos tp) <= tp_max_vel tp * p.
Proof.
  intros Hv Ha Hp Ho tp'.
  assert (Hstep : 0 <= tp_max_vel tp * p) by nra.
  destruct (tp_enable tp) eqn:He.
  - destruct (falls_through tp p) eqn:Hf.
    + subst tp'. rewrite (falls_through_eq tiny tp p Hf). fields.
      apply fabs_le. lra.
    + destruct (commit_in_window tiny tp p Hv Ha Hp Ho He Hf) as [Hw _].
      fold tp' in Hw. unfold min_pos, max_pos in Hw.
      destruct (min_vel_bounds tp p Hv Ha Hp Ho) as [Hlo _].
      destruct (max_vel_bounds tp p Hv Ha Hp Ho) as [_ Hhi].
      apply fabs_le. nra.
  - subst tp'. rewrite (disabled_update_eq tiny tp p He), commit_curr_pos.
    apply fabs_le. lra.
Qed.

Lemma step_within_max_vel_witness :
  let tp' := simple_tp_update TINY_DP (tp_near_max 0 0 false false) 0.001 in
  fabs (tp_curr_pos tp' - tp_curr_pos (tp_near_max 0 0 false false))
  <= tp_max_vel (tp_near_max 0 0 false false) * 0.001.
Proof.
  assert (H1 : 0 <= tp_max_vel (tp_near_max 0 0 false false)) by (apply Qleb_true; reflexivity).
  assert (H2 : 0 < tp_max_acc (tp_near_max 0 0 false false)) by (apply Qltb_true; reflexivity).
  assert (H3 : 0 < 0.001) by (apply Qltb_true; reflexivity).
  assert (H4 : fabs (tp_out_vel_old (tp_near_max 0 0 false false)) <= tp_max_vel (tp_near_max 0 0 false false))
    by (apply Qleb_true; reflexivity).
  exact (step_within_max_vel TINY_DP (tp_near_max 0 0 false false) 0.001 H1 H2 H3 H4).
Defined.

(** The one-step memory: every exit, the disabled one included, leaves
    [out_vel_old] equal to the output velocity and [in_pos_old] equal to
    the command. *)
Theorem memory_after_exit (tiny : Q -> Q -> Q) (tp : simple_tp_t) (p : Q) :
  falls_through tp p = false ->
  let tp' := simple_tp_update tiny tp p in
  tp_out_vel_old tp' = tp_curr_vel tp' /\ tp_in_pos_old tp' = tp_pos_cmd tp'.
Proof.
  intro Hf. cbv zeta. revert Hf. unfold falls_through.
  by_exit tp p; cbn [negb andb]; intro Hf; try discriminate;
    rewrite ?SET_NEXT_STATE_eq; fields; split; reflexivity.
Qed.

Lemma memory_after_exit_witness :
  let tp' := simple_tp_update TINY_DP tp_disabled 0.001 in
  falls_through tp_disabled 0.001 = false
  /\ tp_out_vel_old tp' = tp_curr_vel tp' /\ tp_in_pos_old tp' = tp_pos_cmd tp'.
Proof.
  split; [reflexivity|].
  exact (memory_after_exit TINY_DP tp_disabled 0.001 eq_refl).
Defined.

(** ** The projected stop position *)

(** [pow(x, 2)] is a product. *)
Lemma pow_2 (x : Q) : pow x 2 = x * x.
Proof. reflexivity. Qed.

(** The projected stop position, computed. *)
Lemma vel_0_pos_eq (tp : simple_tp_t) (p : Q) :
  0 < tp_max_acc tp ->
  vel_0_pos tp p ==
  tp_curr_pos tp + tp_out_vel_old tp * p
  + tp_out_vel_old tp * fabs (tp_out_vel_old tp) / (2 * tp_max_acc tp).
Proof.
  intro Ha. unfold vel_0_pos, vel_0_time, out_dir, fabs.
  rewrite pow_2.
  assert (Hne : ~ tp_max_acc tp == 0) by lra.
  assert (Hinv : 0 < / tp_max_acc tp) by (apply Qinv_lt_0_compat; exact Ha).
  destruct (Qltb (tp_out_vel_old tp) 0) eqn:E; order_hyps.
  - assert (Hq : tp_out_vel_old tp / tp_max_acc tp <= 0).
    { unfold Qdiv. nra. }
    rewrite (Qabs_neg _ Hq), (Qabs_neg (tp_out_vel_old tp)) by lra.
    change (inject_Z (Z.opp (-1))) with 1. field. exact Hne.
  - assert (Hq : 0 <= tp_out_vel_old tp / tp_max_acc tp).
    { unfold Qdiv. nra. }
    rewrite (Qabs_pos _ Hq), (Qabs_pos (tp_out_vel_old tp)) by lra.
    change (inject_Z (Z.opp 1)) with (Qopp 1). field. exact Hne.
Qed.

(** [vel_0_pos] in closed form: one more period at the previous output
    velocity, then the braking distance [v^2 / (2 max_acc)] in the
    direction of travel.  The direction taken for a zero velocity does not
    matter, the braking distance being zero there. *)
Theorem vel_0_pos_closed_form (tp : simple_tp_t) (p : Q) :
  0 < tp_max_acc tp ->
  vel_0_pos tp p ==
  tp_curr_pos tp + tp_out_vel_old tp * p
  + tp_out_vel_old tp * fabs (tp_out_vel_old tp) / (2 * tp_max_acc tp).
Proof. exact (vel_0_pos_eq tp p). Qed.

Lemma vel_0_pos_closed_form_witness :
  vel_0_pos tp_at_speed 0.001 ==
  tp_curr_pos tp_at_speed + tp_out_vel_old tp_at_speed * 0.001
  + tp_out_vel_old tp_at_speed * fabs (tp_out_vel_old tp_at_speed)
    / (2 * tp_max_acc tp_at_speed).
Proof.
  apply (vel_0_pos_closed_form tp_at_speed 0.001).
  apply Qltb_true. reflexivity.
Defined.

(** The stop position is beyond the position one period ahead exactly in
    the direction of travel. *)
Lemma vel_0_pos_side (tp : simple_tp_t) (p : Q) :
  0 < tp_max_acc tp ->
  (tp_out_vel_old tp <= 0 ->
   vel_0_pos tp p <= tp_curr_pos tp + tp_out_vel_old tp * p)
  /\ (0 <= tp_out_vel_old tp ->
      tp_curr_pos tp + tp_out_vel_old tp * p <= vel_0_pos tp p).
Proof.
  intro Ha. rewrite (vel_0_pos_eq tp p Ha).
  assert (Hinv : 0 < / (2 * tp_max_acc tp)).
  { apply Qinv_lt_0_compat. lra. }
  unfold Qdiv, fabs. split; intro Hv.
  - rewrite (Qabs_neg _ Hv).
    assert (0 <= tp_out_vel_old tp * tp_out_vel_old tp) by nra. nra.
  - rewrite (Qabs_pos _ Hv).
    assert (0 <= tp_out_vel_old tp * tp_out_vel_old tp) by nra. nra.
Qed.

(** At rest the reachable window contains the current position and the
    zero velocity. *)
Lemma window_around_rest (tp : simple_tp_t) (p : Q) :
  0 <= tp_max_vel tp -> 0 < tp_max_acc tp -> 0 < p ->
  tp_out_vel_old tp == 0 ->
  (min_vel tp p <= 0 <= max_vel tp p)
  /\ (min_pos tp p <= tp_curr_pos tp <= max_pos tp p).
Proof.
  intros Hv Ha Hp Hz.
  assert (Hstep : 0 < tp_max_acc tp * p) by nra.
  assert (Hvel : min_vel tp p <= 0 <= max_vel tp p).
  { unfold min_vel, max_vel.
    destruct (fmax_cases (tp_out_vel_old tp - tp_max_acc tp * p) (- tp_max_vel tp))
      as [[L1 E1]|[L1 E1]]; rewrite E1;
    destruct (fmin_cases (tp_out_vel_old tp + tp_max_acc tp * p) (tp_max_vel tp))
      as [[L2 E2]|[L2 E2]]; rewrite E2; lra. }
  split; [exact Hvel|]. unfold min_pos, max_pos. nra.
Qed.

(** Rule 1 fires only on the way up.  With the position not above
    [max_pos], the stop-overshoot rule of the max side requires a strictly
    positive previous velocity, and the velocity it commits is strictly
    lower. *)
Theorem stop_overshoot_max_brakes (tiny : Q -> Q -> Q) (tp : simple_tp_t) (p : Q) :
  0 <= tp_max_vel tp -> 0 < tp_max_acc tp -> 0 < p ->
  tp_curr_pos tp <= tp_max_pos tp ->
  tp_enable tp = true -> stop_overshoot_max tp p = true ->
  let tp' := simple_tp_update tiny tp p in
  0 < tp_out_vel_old tp
  /\ tp_curr_vel tp' = min_vel tp p
  /\ tp_curr_vel tp' < tp_out_vel_old tp.
Proof.
  intros Hv Ha Hp Hc He Hr tp'.
  assert (Hpos : 0 < tp_out_vel_old tp).
  { apply Qnot_le_lt. intro Hle.
    unfold stop_overshoot_max in Hr. apply andb_true_iff in Hr.
    destruct Hr as [Hstop Hpark]. apply negb_true_iff in Hpark.
    apply Qleb_true in Hstop.
    destruct (vel_0_pos_side tp p Ha) as [Hside _]. specialize (Hside Hle).
    assert (Hz : tp_out_vel_old tp == 0) by nra.
    assert (Hat : tp_curr_pos tp == tp_max_pos tp) by nra.
    destruct (window_around_rest tp p Hv Ha Hp Hz) as [Hwv Hwp].
    assert (Hvalid : VALID_NEXT tp p (tp_max_pos tp) 0 = true).
    { apply VALID_NEXT_true. split; [lra | exact Hwv]. }
    congruence. }
  split; [exact Hpos|].
  assert (E : tp_curr_vel tp' = min_vel tp p).
  { subst tp'. rewrite simple_tp_update_eq. cbv zeta.
    rewrite He, Hr. cbn [negb]. apply commit_curr_vel. }
  split; [exact E|]. rewrite E.
  assert (Hstep : 0 < tp_max_acc tp * p) by nra.
  unfold min_vel.
  destruct (fmax_cases (tp_out_vel_old tp - tp_max_acc tp * p) (- tp_max_vel tp))
    as [[L1 E1]|[L1 E1]]; rewrite E1; lra.
Qed.

Lemma stop_overshoot_max_brakes_witness :
  0 < tp_out_vel_old tp_at_speed
  /\ tp_curr_vel (simple_tp_update TINY_DP tp_at_speed 0.001)
     < tp_out_vel_old tp_at_speed.
Proof.
  assert (H1 : 0 <= tp_max_vel tp_at_speed) by (apply Qleb_true; reflexivity).
  assert (H2 : 0 < tp_max_acc tp_at_speed) by (apply Qltb_true; reflexivity).
  assert (H3 : 0 < 0.001) by (apply Qltb_true; reflexivity).
  assert (H4 : tp_curr_pos tp_at_speed <= tp_max_pos tp_at_speed)
    by (apply Qleb_true; reflexivity).
  pose proof (stop_overshoot_max_brakes TINY_DP tp_at_speed 0.001
                H1 H2 H3 H4 eq_refl eq_refl) as H.
  cbv zeta in H. split; apply H.
Defined.

(** Rule 2 fires only on the way down.  With the position not below
    [min_pos] and rule 1 silent, the stop-overshoot rule of the min side
    requires a strictly negative previous velocity, and the velocity it
    commits is strictly higher. *)
Theorem stop_overshoot_min_brakes (tiny : Q -> Q -> Q) (tp : simple_tp_t) (p : Q) :
  0 <= tp_max_vel tp -> 0 < tp_max_acc tp -> 0 < p ->
  tp_min_pos tp <= tp_curr_pos tp ->
  tp_enable tp = true ->
  stop_overshoot_max tp p = false -> stop_overshoot_min tp p = true ->
  let tp' := simple_tp_update tiny tp p in
  tp_out_vel_old tp < 0
  /\ tp_curr_vel tp' = max_vel tp p
  /\ tp_out_vel_old tp < tp_curr_vel tp'.
Proof.
  intros Hv Ha Hp Hc He Hr1 Hr tp'.
  assert (Hneg : tp_out_vel_old tp < 0).
  { apply Qnot_le_lt. intro Hge.
    unfold stop_overshoot_min in Hr. apply andb_true_iff in Hr.
    destruct Hr as [Hstop Hpark]. apply negb_true_iff in Hpark.
    apply Qleb_true in Hstop.
    destruct (vel_0_pos_side tp p Ha) as [_ Hside]. specialize (Hside Hge).
    assert (Hz : tp_out_vel_old tp == 0) by nra.
    assert (Hat : tp_curr_pos tp == tp_min_pos tp) by nra.
    destruct (window_around_rest tp p Hv Ha Hp Hz) as [Hwv Hwp].
    assert (Hvalid : VALID_NEXT tp p (tp_min_pos tp) 0 = true).
    { apply VALID_NEXT_true. split; [lra | exact Hwv]. }
    congruence. }
  split; [exact Hneg|].
  assert (E : tp_curr_vel tp' = max_vel tp p).
  { subst tp'. rewrite simple_tp_update_eq. cbv zeta.
    rewrite He, Hr1, Hr. cbn [negb]. apply commit_curr_vel. }
  split; [exact E|]. rewrite E.
  assert (Hstep : 0 < tp_max_acc tp * p) by nra.
  unfold max_vel.
  destruct (fmin_cases (tp_out_vel_old tp + tp_max_acc tp * p) (tp_max_vel tp))
    as [[L1 E1]|[L1 E1]]; rewrite E1; lra.
Qed.

Lemma stop_overshoot_min_brakes_witness :
  tp_out_vel_old tp_at_speed_down < 0
  /\ tp_out_vel_old tp_at_speed_down
     < tp_curr_vel (simple_tp_update TINY_DP tp_at_speed_down 0.001).
Proof.
  assert (H1 : 0 <= tp_max_vel tp_at_speed_down) by (apply Qleb_true; reflexivity).
  assert (H2 : 0 < tp_max_acc tp_at_speed_down) by (apply Qltb_true; reflexivity).
  assert (H3 : 0 < 0.001) by (apply Qltb_true; reflexivity).
  assert (H4 : tp_min_pos tp_at_speed_down <= tp_curr_pos tp_at_speed_down)
    by (apply Qleb_true; reflexivity).
  pose proof (stop_overshoot_min_brakes TINY_DP tp_at_speed_down 0.001
                H1 H2 H3 H4 eq_refl eq_refl eq_refl) as H.
  cbv zeta in H. split; apply H.
Defined.

(** ** A channel at rest whose command is held *)

Section HeldCommand.

Variables (tp : simple_tp_t) (p : Q).

Hypothesis max_vel_nonneg : 0 <= tp_max_vel tp.
Hypothesis max_acc_pos : 0 < tp_max_acc tp.
Hypothesis period_pos : 0 < p.
Hypothesis cmd_held : tp_in_pos_old tp == tp_pos_cmd tp.
Hypothesis at_rest : tp_out_vel_old tp == 0.

Lemma held_in_vel : in_vel tp p == 0.
Proof.
  unfold in_vel.
  assert (E : tp_pos_cmd tp - tp_in_pos_old tp == 0) by lra.
  rewrite E. unfold Qdiv. ring.
Qed.

Lemma held_vel_match_time : vel_match_time tp p == 0.
Proof.
  unfold vel_match_time, fabs.
  assert (E : tp_out_vel_old tp - in_vel tp p == 0)
    by (rewrite held_in_vel; lra).
  rewrite E. unfold Qdiv. cbn [Qabs Z.abs]. ring.
Qed.

Lemma held_vel_match_in_pos : vel_match_in_pos tp p == tp_pos_cmd tp.
Proof.
  unfold vel_match_in_pos. rewrite held_in_vel. ring.
Qed.

Lemma held_vel_match_out_pos : vel_match_out_pos tp p == tp_curr_pos tp.
Proof.
  unfold vel_match_out_pos. rewrite pow_2, held_vel_match_time, at_rest. ring.
Qed.

Lemma held_vel_0_pos : vel_0_pos tp p == tp_curr_pos tp.
Proof.
  rewrite (vel_0_pos_eq tp p max_acc_pos), at_rest.
  unfold Qdiv. ring.
Qed.

(** The current position with zero velocity is itself a valid candidate. *)
Lemma held_valid_here (pos vel : Q) :
  pos == tp_curr_pos tp -> vel == 0 -> VALID_NEXT tp p pos vel = true.
Proof.
  intros Hpos Hvel.
  destruct (window_around_rest tp p max_vel_nonneg max_acc_pos period_pos at_rest)
    as [Hwv Hwp].
  apply VALID_NEXT_true. split; lra.
Qed.

End HeldCommand.

(** One call on a channel resting on its command: rule 5 tracks the
    command, the channel stays where it is and is still resting. *)
Lemma resting_step (tiny : Q -> Q -> Q) (tp : simple_tp_t) (p : Q) :
  0 < p -> resting_on_cmd tp ->
  let tp' := simple_tp_update tiny tp p in
  resting_on_cmd tp'
  /\ tp_pos_cmd tp' = tp_pos_cmd tp /\ tp_max_acc tp' = tp_max_acc tp
  /\ tp_curr_pos tp' = tp_pos_cmd tp /\ tp_curr_vel tp' == 0
  /\ tp_active tp' =
     (if Qltb 0 (fabs (tiny (tp_max_acc tp) p)) then false else true).
Proof.
  intros Hp (He & Hv & Ha & Hb & Hc & Hi & Hz). cbv zeta.
  pose proof (held_in_vel tp p Hi) as Hin.
  pose proof (held_vel_match_in_pos tp p Hi) as Hmi.
  pose proof (held_vel_match_out_pos tp p Hi Hz) as Hmo.
  pose proof (held_vel_0_pos tp p Ha Hz) as H0.
  assert (H1 : stop_overshoot_max tp p = false).
  { unfold stop_overshoot_max.
    destruct (Qleb (tp_max_pos tp) (vel_0_pos tp p)) eqn:E; [|reflexivity].
    apply Qleb_true in E.
    rewrite (held_valid_here tp p Hv Ha Hp Hz (tp_max_pos tp) 0); [reflexivity| |];
      lra. }
  assert (H2 : stop_overshoot_min tp p = false).
  { unfold stop_overshoot_min.
    destruct (Qleb (vel_0_pos tp p) (tp_min_pos tp)) eqn:E; [|reflexivity].
    apply Qleb_true in E.
    rewrite (held_valid_here tp p Hv Ha Hp Hz (tp_min_pos tp) 0); [reflexivity| |];
      lra. }
  assert (H3 : heading_to_min tp p = false).
  { unfold heading_to_min. apply orb_false_iff. split.
    - apply Qltb_false. lra.
    - apply andb_false_iff. right. apply Qltb_false. lra. }
  assert (H4 : heading_to_max tp p = false).
  { unfold heading_to_max. apply orb_false_iff. split.
    - apply Qltb_false. lra.
    - apply andb_false_iff. right. apply Qltb_false. lra. }
  assert (H5 : can_track tp p = true).
  { unfold can_track. apply (held_valid_here tp p Hv Ha Hp Hz); lra. }
  rewrite simple_tp_update_eq. cbv zeta.
  rewrite He, H1, H2, H3, H4, H5. cbn [negb].
  rewrite SET_NEXT_STATE_eq. fields.
  assert (Hgap : fabs (tp_pos_cmd tp - tp_pos_cmd tp) == 0).
  { unfold fabs. rewrite Qabs_pos; lra. }
  assert (Hact : Qltb (fabs (tp_pos_cmd tp - tp_pos_cmd tp))
                      (fabs (tiny (tp_max_acc tp) p))
                 = Qltb 0 (fabs (tiny (tp_max_acc tp) p))).
  { destruct (Qltb 0 _) eqn:E; order_hyps;
      [apply Qltb_true | apply Qltb_false]; lra. }
  rewrite Hact.
  split; [|repeat split; try reflexivity; exact Hin].
  unfold resting_on_cmd. fields. repeat split; try assumption; try lra.
Qed.

(** Any number of calls on a channel resting on its command. *)
Lemma rest_on_command_steps
    (tiny : Q -> Q -> Q) (tp : simple_tp_t) (p : Q) (n : nat) :
  0 < p -> resting_on_cmd tp ->
  ~ tiny (tp_max_acc tp) p == 0 ->
  let tp' := simple_tp_run tiny (S n) tp p in
  tp_curr_pos tp' = tp_pos_cmd tp /\ tp_curr_vel tp' == 0
  /\ tp_pos_cmd tp' = tp_pos_cmd tp /\ tp_active tp' = false.
Proof.
  intros Hp. revert tp. induction n as [|n IH]; intros tp Hrest Htiny.
  - cbv zeta. cbn [simple_tp_run].
    destruct (resting_step tiny tp p Hp Hrest) as (_ & Hc & _ & Hpos & Hvel & Hact).
    repeat split; try assumption.
    rewrite Hact.
    assert (Hthr : 0 < fabs (tiny (tp_max_acc tp) p)).
    { unfold fabs. apply Qabs_case; intro; lra. }
    apply Qltb_true in Hthr. rewrite Hthr. reflexivity.
  - destruct (resting_step tiny tp p Hp Hrest) as (Hrest' & Hc & Hacc & _).
    change (simple_tp_run tiny (S (S n)) tp p)
      with (simple_tp_run tiny (S n) (simple_tp_update tiny tp p) p).
    rewrite <- Hc. apply IH; [exact Hrest'|]. rewrite Hacc. exact Htiny.
Qed.

(** A channel at rest on a held command within the bounds settles and
    stays: after any number of calls it is on the command with zero
    velocity, and [active] is cleared provided the threshold is not zero. *)
Theorem rest_on_command_settles
    (tiny : Q -> Q -> Q) (tp : simple_tp_t) (p : Q) (n : nat) :
  0 < p -> resting_on_cmd tp ->
  ~ tiny (tp_max_acc tp) p == 0 ->
  let tp' := simple_tp_run tiny (S n) tp p in
  tp_curr_pos tp' = tp_pos_cmd tp /\ tp_curr_vel tp' == 0
  /\ tp_pos_cmd tp' = tp_pos_cmd tp /\ tp_active tp' = false.
Proof. exact (rest_on_command_steps tiny tp p n). Qed.

Lemma rest_on_command_settles_witness :
  (0 < 0.001 /\ resting_on_cmd tp_settled
   /\ ~ TINY_DP (tp_max_acc tp_settled) 0.001 == 0)
  /\ tp_curr_pos (simple_tp_run TINY_DP 3 tp_settled 0.001) = 7
  /\ tp_active (simple_tp_run TINY_DP 3 tp_settled 0.001) = false.
Proof.
  assert (H1 : 0 < 0.001) by (apply Qltb_true; reflexivity).
  assert (H2 : resting_on_cmd tp_settled).
  { unfold resting_on_cmd.
    repeat split; try reflexivity; apply Qleb_true; reflexivity. }
  assert (H3 : ~ TINY_DP (tp_max_acc tp_settled) 0.001 == 0).
  { vm_compute. intro H. discriminate H. }
  split; [split; [exact H1 | split; [exact H2 | exact H3]]|].
  pose proof (rest_on_command_settles TINY_DP tp_settled 0.001 2 H1 H2 H3) as H.
  cbv zeta in H. split; apply H.
Defined.

(** ** A channel parked on a bound by a command beyond it *)

(** One call on a channel parked on [max_pos]: rule 4 parks it again. *)
Lemma parked_max_step (tiny : Q -> Q -> Q) (tp : simple_tp_t) (p : Q) :
  0 < p -> parked_at_max tp ->
  let tp' := simple_tp_update tiny tp p in
  parked_at_max tp'
  /\ tp_pos_cmd tp' = tp_pos_cmd tp /\ tp_max_acc tp' = tp_max_acc tp
  /\ tp_max_pos tp' = tp_max_pos tp
  /\ tp_curr_pos tp' = tp_max_pos tp /\ tp_curr_vel tp' = 0
  /\ tp_active tp' =
     (if Qltb (fabs (tp_max_pos tp - tp_pos_cmd tp)) (fabs (tiny (tp_max_acc tp) p))
      then false else true).
Proof.
  intros Hp (He & Hv & Ha & Hb & Hc & Hcmd & Hi & Hz). cbv zeta.
  pose proof (held_vel_match_in_pos tp p Hi) as Hmi.
  pose proof (held_vel_0_pos tp p Ha Hz) as H0.
  assert (Hpark : VALID_NEXT tp p (tp_max_pos tp) 0 = true).
  { apply (held_valid_here tp p Hv Ha Hp Hz); lra. }
  assert (H1 : stop_overshoot_max tp p = false).
  { unfold stop_overshoot_max. rewrite Hpark. apply andb_false_r. }
  assert (H2 : stop_overshoot_min tp p = false).
  { unfold stop_overshoot_min. apply andb_false_iff. left.
    apply Qleb_false. lra. }
  assert (H3 : heading_to_min tp p = false).
  { unfold heading_to_min. apply orb_false_iff. split.
    - apply Qltb_false. lra.
    - apply andb_false_iff. left. apply Qleb_false. lra. }
  assert (H4 : heading_to_max tp p = true).
  { unfold heading_to_max. apply orb_true_iff. left. apply Qltb_true. lra. }
  rewrite simple_tp_update_eq. cbv zeta.
  rewrite He, H1, H2, H3, H4, Hpark. cbn [negb].
  rewrite SET_NEXT_STATE_eq. fields.
  split; [|repeat split; reflexivity].
  unfold parked_at_max. fields. repeat split; try assumption; lra.
Qed.

(** A channel parked on [max_pos] by a command held beyond it stays
    parked with zero velocity, and it never reports settled when the
    command is at least the threshold away from the bound. *)
Theorem held_at_max_bound
    (tiny : Q -> Q -> Q) (tp : simple_tp_t) (p : Q) (n : nat) :
  0 < p -> parked_at_max tp ->
  fabs (tiny (tp_max_acc tp) p) <= tp_pos_cmd tp - tp_max_pos tp ->
  let tp' := simple_tp_run tiny (S n) tp p in
  tp_curr_pos tp' = tp_max_pos tp /\ tp_curr_vel tp' = 0
  /\ tp_active tp' = true.
Proof.
  intros Hp. revert tp. induction n as [|n IH]; intros tp Hpark Hgap.
  - cbv zeta. cbn [simple_tp_run].
    destruct (parked_max_step tiny tp p Hp Hpark)
      as (_ & _ & _ & _ & Hpos & Hvel & Hact).
    repeat split; try assumption. rewrite Hact.
    destruct Hpark as (_ & _ & _ & _ & _ & Hcmd & _).
    assert (Hfar : Qltb (fabs (tp_max_pos tp - tp_pos_cmd tp))
                        (fabs (tiny (tp_max_acc tp) p)) = false).
    { apply Qltb_false. unfold fabs in *.
      rewrite (Qabs_neg (tp_max_pos tp - tp_pos_cmd tp)) by lra. lra. }
    rewrite Hfar. reflexivity.
  - destruct (parked_max_step tiny tp p Hp Hpark)
      as (Hpark' & Hc & Hacc & Hmax & _).
    change (simple_tp_run tiny (S (S n)) tp p)
      with (simple_tp_run tiny (S n) (simple_tp_update tiny tp p) p).
    rewrite <- Hmax. apply IH; [exact Hpark'|]. rewrite Hacc, Hc, Hmax. exact Hgap.
Qed.

Lemma held_at_max_bound_witness :
  (0 < 0.001 /\ parked_at_max tp_parked_max
   /\ fabs (TINY_DP (tp_max_acc tp_parked_max) 0.001)
      <= tp_pos_cmd tp_parked_max - tp_max_pos tp_parked_max)
  /\ tp_curr_pos (simple_tp_run TINY_DP 3 tp_parked_max 0.001) = 50
  /\ tp_active (simple_tp_run TINY_DP 3 tp_parked_max 0.001) = true.
Proof.
  assert (H1 : 0 < 0.001) by (apply Qltb_true; reflexivity).
  assert (H2 : parked_at_max tp_parked_max).
  { unfold parked_at_max.
    repeat split; try reflexivity; apply Qleb_true; reflexivity. }
  assert (H3 : fabs (TINY_DP (tp_max_acc tp_parked_max) 0.001)
               <= tp_pos_cmd tp_parked_max - tp_max_pos tp_parked_max)
    by (apply Qleb_true; reflexivity).
  split; [split; [exact H1 | split; [exact H2 | exact H3]]|].
  pose proof (held_at_max_bound TINY_DP tp_parked_max 0.001 2 H1 H2 H3) as H.
  cbv zeta in H. split; apply H.
Defined.

(** One call on a channel parked on [min_pos]: rule 3 parks it again. *)
Lemma parked_min_step (tiny : Q -> Q -> Q) (tp : simple_tp_t) (p : Q) :
  0 < p -> parked_at_min tp ->
  let tp' := simple_tp_update tiny tp p in
  parked_at_min tp'
  /\ tp_pos_cmd tp' = tp_pos_cmd tp /\ tp_max_acc tp' = tp_max_acc tp
  /\ tp_min_pos tp' = tp_min_pos tp
  /\ tp_curr_pos tp' = tp_min_pos tp /\ tp_curr_vel tp' = 0
  /\ tp_active tp' =
     (if Qltb (fabs (tp_min_pos tp - tp_pos_cmd tp)) (fabs (tiny (tp_max_acc tp) p))
      then false else true).
Proof.
  intros Hp (He & Hv & Ha & Hb & Hc & Hcmd & Hi & Hz). cbv zeta.
  pose proof (held_vel_match_in_pos tp p Hi) as Hmi.
  pose proof (held_vel_0_pos tp p Ha Hz) as H0.
  assert (Hpark : VALID_NEXT tp p (tp_min_pos tp) 0 = true).
  { apply (held_valid_here tp p Hv Ha Hp Hz); lra. }
  assert (H1 : stop_overshoot_max tp p = false).
  { unfold stop_overshoot_max. apply andb_false_iff. left.
    apply Qleb_false. lra. }
  assert (H2 : stop_overshoot_min tp p = false).
  { unfold stop_overshoot_min. rewrite Hpark. apply andb_false_r. }
  assert (H3 : heading_to_min tp p = true).
  { unfold heading_to_min. apply orb_true_iff. left. apply Qltb_true. lra. }
  rewrite simple_tp_update_eq. cbv zeta.
  rewrite He, H1, H2, H3, Hpark. cbn [negb].
  rewrite SET_NEXT_STATE_eq. fields.
  split; [|repeat split; reflexivity].
  unfold parked_at_min. fields. repeat split; try assumption; lra.
Qed.

(** The same on the lower bound: parked on [min_pos] by a command held
    below it, the channel stays parked and never reports settled when the
    command is at least the threshold away. *)
Theorem held_at_min_bound
    (tiny : Q -> Q -> Q) (tp : simple_tp_t) (p : Q) (n : nat) :
  0 < p -> parked_at_min tp ->
  fabs (tiny (tp_max_acc tp) p) <= tp_min_pos tp - tp_pos_cmd tp ->
  let tp' := simple_tp_run tiny (S n) tp p in
  tp_curr_pos tp' = tp_min_pos tp /\ tp_curr_vel tp' = 0
  /\ tp_active tp' = true.
Proof.
  intros Hp. revert tp. induction n as [|n IH]; intros tp Hpark Hgap.
  - cbv zeta. cbn [simple_tp_run].
    destruct (parked_min_step tiny tp p Hp Hpark)
      as (_ & _ & _ & _ & Hpos & Hvel & Hact).
    repeat split; try assumption. rewrite Hact.
    destruct Hpark as (_ & _ & _ & _ & _ & Hcmd & _).
    assert (Hfar : Qltb (fabs (tp_min_pos tp - tp_pos_cmd tp))
                        (fabs (tiny (tp_max_acc tp) p)) = false).
    { apply Qltb_false. unfold fabs in *.
      rewrite (Qabs_pos (tp_min_pos tp - tp_pos_cmd tp)) by lra. lra. }
    rewrite Hfar. reflexivity.
  - destruct (parked_min_step tiny tp p Hp Hpark)
      as (Hpark' & Hc & Hacc & Hmin & _).
    change (simple_tp_run tiny (S (S n)) tp p)
      with (simple_tp_run tiny (S n) (simple_tp_update tiny tp p) p).
    rewrite <- Hmin. apply IH; [exact Hpark'|]. rewrite Hacc, Hc, Hmin. exact Hgap.
Qed.

Lemma held_at_min_bound_witness :
  (0 < 0.001 /\ parked_at_min tp_parked_min
   /\ fabs (TINY_DP (tp_max_acc tp_parked_min) 0.001)
      <= tp_min_pos tp_parked_min - tp_pos_cmd tp_parked_min)
  /\ tp_curr_pos (simple_tp_run TINY_DP 3 tp_parked_min 0.001) = -50
  /\ tp_active (simple_tp_run TINY_DP 3 tp_parked_min 0.001) = true.
Proof.
  assert (H1 : 0 < 0.001) by (apply Qltb_true; reflexivity).
  assert (H2 : parked_at_min tp_parked_min).
  { unfold parked_at_min.
    repeat split; try reflexivity; apply Qleb_true; reflexivity. }
  assert (H3 : fabs (TINY_DP (tp_max_acc tp_parked_min) 0.001)
               <= tp_min_pos tp_parked_min - tp_pos_cmd tp_parked_min)
    by (apply Qleb_true; reflexivity).
  split; [split; [exact H1 | split; [exact H2 | exact H3]]|].
  pose proof (held_at_min_bound TINY_DP tp_parked_min 0.001 2 H1 H2 H3) as H.
  cbv zeta in H. split; apply H.
Defined.

(** ** The velocity-match projections *)

(** The overshoot test in closed form: the output's velocity-matched
    position exceeds the input's by the position gap, one period of the
    previous output velocity, and the braking distance of the relative
    velocity [w = out_vel_old - in_vel], signed by its direction.  The
    direction taken for a zero relative velocity does not matter. *)
Theorem vel_match_gap_closed_form (tp : simple_tp_t) (p : Q) :
  0 < tp_max_acc tp ->
  let w := tp_out_vel_old tp - in_vel tp p in
  vel_match_out_pos tp p - vel_match_in_pos tp p ==
  (tp_curr_pos tp - tp_pos_cmd tp) + tp_out_vel_old tp * p
  + w * fabs w / (2 * tp_max_acc tp).
Proof.
  intros Ha w.
  unfold vel_match_out_pos, vel_match_in_pos, vel_match_time, out_dir_rel.
  fold w. unfold fabs. rewrite pow_2.
  assert (Hne : ~ tp_max_acc tp == 0) by lra.
  assert (Hu : in_vel tp p == tp_out_vel_old tp - w) by (unfold w; ring).
  rewrite Hu.
  destruct (Qltb w 0) eqn:E; order_hyps.
  - rewrite (Qabs_neg w) by lra.
    change (inject_Z (Z.opp (-1))) with 1. field. exact Hne.
  - rewrite (Qabs_pos w) by lra.
    change (inject_Z (Z.opp 1)) with (Qopp 1). field. exact Hne.
Qed.

Lemma vel_match_gap_closed_form_witness :
  vel_match_out_pos tp_no_backoff 0.001 - vel_match_in_pos tp_no_backoff 0.001 ==
  (tp_curr_pos tp_no_backoff - tp_pos_cmd tp_no_backoff)
  + tp_out_vel_old tp_no_backoff * 0.001
  + (tp_out_vel_old tp_no_backoff - in_vel tp_no_backoff 0.001)
    * fabs (tp_out_vel_old tp_no_backoff - in_vel tp_no_backoff 0.001)
    / (2 * tp_max_acc tp_no_backoff).
Proof.
  apply (vel_match_gap_closed_form tp_no_backoff 0.001).
  apply Qltb_true. reflexivity.
Defined.

(** ** When the command can be tracked *)

(** The input velocity times the period is the step of the command. *)
Lemma in_vel_step (tp : simple_tp_t) (p : Q) :
  ~ p == 0 -> in_vel tp p * p == tp_pos_cmd tp - tp_in_pos_old tp.
Proof. intro Hp. unfold in_vel. field. exact Hp. Qed.

(** Once the output is on the previous command, rule 5 depends on the
    velocity alone: the command passes [VALID_NEXT] exactly when the input
    velocity lies in the reachable velocity window. *)
Theorem can_track_iff_velocity (tp : simple_tp_t) (p : Q) :
  0 < p -> tp_curr_pos tp == tp_in_pos_old tp ->
  (can_track tp p = true <->
   min_vel tp p <= in_vel tp p <= max_vel tp p).
Proof.
  intros Hp Hon. unfold can_track. rewrite VALID_NEXT_true.
  assert (Hstep : in_vel tp p * p == tp_pos_cmd tp - tp_in_pos_old tp)
    by (apply in_vel_step; lra).
  unfold min_pos, max_pos. split.
  - intros [_ H]. exact H.
  - intros [Hlo Hhi]. split; [|split; assumption]. split; nra.
Qed.

Lemma can_track_iff_velocity_witness :
  (0 < 0.001 /\ tp_curr_pos tp_tracking == tp_in_pos_old tp_tracking)
  /\ (can_track tp_tracking 0.001 = true <->
      min_vel tp_tracking 0.001 <= in_vel tp_tracking 0.001
      <= max_vel tp_tracking 0.001).
Proof.
  assert (H1 : 0 < 0.001) by (apply Qltb_true; reflexivity).
  assert (H2 : tp_curr_pos tp_tracking == tp_in_pos_old tp_tracking)
    by reflexivity.
  split; [split; assumption|].
  exact (can_track_iff_velocity tp_tracking 0.001 H1 H2).
Defined.

(** ** The settle flag on the exits, and the call without exit *)

(** Every call that takes an exit, the disabled one included, runs the
    settle test on what it committed: [active] is cleared exactly when the
    new position is closer to the command than the threshold. *)
Theorem settle_flag_iff_on_exit (tiny : Q -> Q -> Q) (tp : simple_tp_t) (p : Q) :
  falls_through tp p = false ->
  let tp' := simple_tp_update tiny tp p in
  tp_active tp' = false <->
  fabs (tp_curr_pos tp' - tp_pos_cmd tp') < fabs (tiny (tp_max_acc tp') p).
Proof. exact (settle_flag_on_commit tiny tp p). Qed.

Lemma settle_flag_iff_on_exit_witness :
  let tp' := simple_tp_update TINY_DP tp_tracking 0.001 in
  falls_through tp_tracking 0.001 = false
  /\ (tp_active tp' = false <->
      fabs (tp_curr_pos tp' - tp_pos_cmd tp') < fabs (TINY_DP (tp_max_acc tp') 0.001)).
Proof.
  split; [reflexivity|].
  exact (settle_flag_iff_on_exit TINY_DP tp_tracking 0.001 eq_refl).
Defined.

(** A call that takes no exit is repeated for ever: as long as the
    command is not changed, every later call takes no exit either, so the
    position, both velocities and the stored previous command stay as they
    were and [active] stays set. *)
Theorem no_exit_is_permanent
    (tiny : Q -> Q -> Q) (tp : simple_tp_t) (p : Q) (n : nat) :
  falls_through tp p = true ->
  let tp' := simple_tp_run tiny (S n) tp p in
  tp' = set_active tp true
  /\ falls_through tp' p = true
  /\ tp_curr_pos tp' = tp_curr_pos tp /\ tp_curr_vel tp' = tp_curr_vel tp
  /\ tp_out_vel_old tp' = tp_out_vel_old tp
  /\ tp_in_pos_old tp' = tp_in_pos_old tp
  /\ tp_active tp' = true.
Proof.
  intros Hf. cbv zeta. rewrite (falls_through_stuck tiny tp p n Hf).
  repeat split; try reflexivity. exact Hf.
Qed.

Lemma no_exit_is_permanent_witness :
  falls_through tp_on_cmd 0.001 = true
  /\ simple_tp_run TINY_DP 5 tp_on_cmd 0.001 = set_active tp_on_cmd true.
Proof.
  split; [reflexivity|].
  exact (proj1 (no_exit_is_permanent TINY_DP tp_on_cmd 0.001 4 eq_refl)).
Defined.

(** ** Disabling and enabling again *)

(** After a disabled call the channel can be enabled again without a
    jump: if the host sets [enable] and leaves the command alone, the
    channel stays where the disabled call held it, with zero velocity, and
    reports settled, for any number of calls. *)
Theorem enable_after_disable_holds
    (tiny : Q -> Q -> Q) (tp : simple_tp_t) (p : Q) (n : nat) :
  0 < p -> 0 <= tp_max_vel tp -> 0 < tp_max_acc tp ->
  tp_min_pos tp <= tp_curr_pos tp <= tp_max_pos tp ->
  ~ tiny (tp_max_acc tp) p == 0 ->
  tp_enable tp = false ->
  let held := simple_tp_update tiny tp p in
  let tp' := simple_tp_run tiny (S n) (set_enable held true) p in
  tp_curr_pos tp' = tp_curr_pos tp /\ tp_curr_vel tp' == 0
  /\ tp_active tp' = false.
Proof.
  intros Hp Hv Ha Hb Htiny He held tp'.
  assert (Hheld : held = SET_NEXT_STATE tiny
                    (set_pos_cmd (set_active tp true) (tp_curr_pos tp)) p
                    (tp_curr_pos tp) 0 (tp_curr_pos tp))
    by (apply disabled_update_eq; exact He).
  rewrite SET_NEXT_STATE_eq in Hheld.
  cbn [tp_pos_cmd tp_max_vel tp_max_acc tp_enable tp_curr_pos tp_curr_vel
       tp_active tp_in_pos_old tp_out_vel_old tp_min_pos tp_max_pos
       tp_disallow_backoff set_active set_pos_cmd] in Hheld.
  assert (Hrest : resting_on_cmd (set_enable held true)).
  { rewrite Hheld. unfold resting_on_cmd, set_enable. fields.
    repeat split; try assumption; try reflexivity; try lra; apply Hb. }
  assert (Hacc : tp_max_acc (set_enable held true) = tp_max_acc tp)
    by (rewrite Hheld; reflexivity).
  assert (Hcmd : tp_pos_cmd (set_enable held true) = tp_curr_pos tp)
    by (rewrite Hheld; reflexivity).
  rewrite <- Hacc in Htiny.
  destruct (rest_on_command_steps tiny (set_enable held true) p n Hp Hrest Htiny)
    as (Hpos & Hvel & _ & Hact).
  fold tp' in Hpos, Hvel, Hact. rewrite Hcmd in Hpos.
  repeat split; assumption.
Qed.

Lemma enable_after_disable_holds_witness :
  let held := simple_tp_update TINY_DP tp_disabled 0.001 in
  let tp' := simple_tp_run TINY_DP 3 (set_enable held true) 0.001 in
  tp_enable tp_disabled = false
  /\ tp_curr_pos tp' = tp_curr_pos tp_disabled /\ tp_active tp' = false.
Proof.
  assert (H1 : 0 < 0.001) by (apply Qltb_true; reflexivity).
  assert (H2 : 0 <= tp_max_vel tp_disabled) by (apply Qleb_true; reflexivity).
  assert (H3 : 0 < tp_max_acc tp_disabled) by (apply Qltb_true; reflexivity).
  assert (H4 : tp_min_pos tp_disabled <= tp_curr_pos tp_disabled
               <= tp_max_pos tp_disabled)
    by (split; apply Qleb_true; reflexivity).
  assert (H5 : ~ TINY_DP (tp_max_acc tp_disabled) 0.001 == 0).
  { vm_compute. intro H. discriminate H. }
  pose proof (enable_after_disable_holds TINY_DP tp_disabled 0.001 2
                H1 H2 H3 H4 H5 eq_refl) as H.
  cbv zeta in H. split; [reflexivity|]. split; apply H.
Defined.

(** ** A command that keeps the velocity of the output *)

Section Matched.

Variables (tp : simple_tp_t) (p : Q).

Hypothesis period_pos : 0 < p.
Hypothesis on_prev_cmd : tp_curr_pos tp == tp_in_pos_old tp.
Hypothesis same_vel : in_vel tp p == tp_out_vel_old tp.




End Matched.



(** ** Invariants along a sequence of commands *)

(** One call keeps both stored velocities within the limit. *)
Lemma velocities_bounded_step (tiny : Q -> Q -> Q) (tp : simple_tp_t) (p : Q) :
  0 < p -> velocities_bounded tp ->
  velocities_bounded (simple_tp_update tiny tp p).
Proof.
  intros Hp (Hv & Ha & Ho & Hc). unfold velocities_bounded.
  destruct (update_keeps_limits tiny tp p) as (_ & _ & _ & Hmv & Hma & _).
  rewrite Hmv, Hma.
  destruct (min_vel_bounds tp p Hv Ha Hp Ho) as [Hmin1 Hmin2].
  destruct (max_vel_bounds tp p Hv Ha Hp Ho) as [Hmax1 Hmax2].
  assert (Hzero : fabs 0 <= tp_max_vel tp) by (apply fabs_le; lra).
  assert (Hlo : fabs (min_vel tp p) <= tp_max_vel tp) by (apply fabs_le; lra).
  assert (Hhi : fabs (max_vel tp p) <= tp_max_vel tp) by (apply fabs_le; lra).
  split; [exact Hv|]. split; [exact Ha|].
  by_exit tp p; rewrite ?commit_curr_vel, ?commit_out_vel_old;
    try (split; assumption).
  unfold can_track in Htrack. apply VALID_NEXT_true in Htrack.
  destruct Htrack as [_ [Hl Hu]].
  assert (fabs (in_vel tp p) <= tp_max_vel tp) by (apply fabs_le; lra).
  split; assumption.
Qed.

Lemma follow_keeps_limits (tiny : Q -> Q -> Q) (cmds : list Q) :
  forall (tp : simple_tp_t) (p : Q),
    tp_max_vel (simple_tp_follow tiny cmds tp p) = tp_max_vel tp
    /\ tp_max_acc (simple_tp_follow tiny cmds tp p) = tp_max_acc tp.
Proof.
  induction cmds as [|c cmds IH]; intros tp p; cbn [simple_tp_follow].
  - split; reflexivity.
  - destruct (IH (simple_tp_update tiny (set_pos_cmd tp c) p) p) as [E1 E2].
    destruct (update_keeps_limits tiny (set_pos_cmd tp c) p)
      as (_ & _ & _ & Hmv & Hma & _).
    rewrite E1, E2, Hmv, Hma. split; reflexivity.
Qed.

(** Whatever commands the host writes, cycle after cycle, the output
    velocity and the stored previous velocity stay within [max_vel]. *)
Theorem velocity_bounded_along_commands
    (tiny : Q -> Q -> Q) (cmds : list Q) (tp : simple_tp_t) (p : Q) :
  0 < p -> velocities_bounded tp ->
  let tp' := simple_tp_follow tiny cmds tp p in
  fabs (tp_curr_vel tp') <= tp_max_vel tp
  /\ fabs (tp_out_vel_old tp') <= tp_max_vel tp.
Proof.
  intros Hp. revert tp.
  induction cmds as [|c cmds IH]; intros tp Hb; cbv zeta; cbn [simple_tp_follow].
  - destruct Hb as (_ & _ & Ho & Hc). split; assumption.
  - assert (Hb1 : velocities_bounded (set_pos_cmd tp c)) by exact Hb.
    pose proof (velocities_bounded_step tiny (set_pos_cmd tp c) p Hp Hb1) as Hb2.
    destruct (update_keeps_limits tiny (set_pos_cmd tp c) p)
      as (_ & _ & _ & Hmv & _).
    change (tp_max_vel (set_pos_cmd tp c)) with (tp_max_vel tp) in Hmv.
    rewrite <- Hmv. apply IH. exact Hb2.
Qed.

Lemma velocity_bounded_along_commands_witness :
  (0 < 0.001 /\ velocities_bounded tp_tracking)
  /\ fabs (tp_curr_vel (simple_tp_follow TINY_DP (cons 1 (cons 100 (cons (-3) nil)))
                          tp_tracking 0.001))
     <= tp_max_vel tp_tracking.
Proof.
  assert (H1 : 0 < 0.001) by (apply Qltb_true; reflexivity).
  assert (H2 : velocities_bounded tp_tracking).
  { unfold velocities_bounded.
    repeat split; try reflexivity; apply Qleb_true; reflexivity. }
  split; [split; assumption|].
  exact (proj1 (velocity_bounded_along_commands TINY_DP
                  (cons 1 (cons 100 (cons (-3) nil))) tp_tracking 0.001 H1 H2)).
Defined.

(** Whatever commands the host writes, after [n] cycles the position is
    at most [n * max_vel * fperiod] away from where it started. *)
Theorem travel_bounded_along_commands
    (tiny : Q -> Q -> Q) (cmds : list Q) (tp : simple_tp_t) (p : Q) :
  0 < p -> velocities_bounded tp ->
  let tp' := simple_tp_follow tiny cmds tp p in
  fabs (tp_curr_pos tp' - tp_curr_pos tp)
  <= inject_Z (Z.of_nat (length cmds)) * (tp_max_vel tp * p).
Proof.
  intros Hp. revert tp.
  induction cmds as [|c cmds IH]; intros tp Hb; cbv zeta;
    cbn [simple_tp_follow length].
  - apply fabs_le. change (inject_Z (Z.of_nat 0)) with 0. lra.
  - assert (Hb1 : velocities_bounded (set_pos_cmd tp c)) by exact Hb.
    pose proof (velocities_bounded_step tiny (set_pos_cmd tp c) p Hp Hb1) as Hb2.
    specialize (IH _ Hb2). cbv zeta in IH.
    destruct (update_keeps_limits tiny (set_pos_cmd tp c) p)
      as (_ & _ & _ & Hmv & _).
    change (tp_max_vel (set_pos_cmd tp c)) with (tp_max_vel tp) in Hmv.
    rewrite Hmv in IH.
    destruct Hb as (Hv & Ha & Ho & _).
    assert (Hstep : fabs (tp_curr_pos (simple_tp_update tiny (set_pos_cmd tp c) p)
                          - tp_curr_pos tp) <= tp_max_vel tp * p).
    { destruct (tp_enable tp) eqn:He.
      - destruct (falls_through (set_pos_cmd tp c) p) eqn:Hf.
        + rewrite (falls_through_eq tiny _ p Hf). fields.
          apply fabs_le. nra.
        + destruct (commit_in_window tiny (set_pos_cmd tp c) p Hv Ha Hp Ho He Hf)
            as [Hw _].
          unfold min_pos, max_pos in Hw.
          destruct (min_vel_bounds (set_pos_cmd tp c) p Hv Ha Hp Ho) as [Hlo _].
          destruct (max_vel_bounds (set_pos_cmd tp c) p Hv Ha Hp Ho) as [_ Hhi].
          change (tp_curr_pos (set_pos_cmd tp c)) with (tp_curr_pos tp) in Hw.
          change (tp_max_vel (set_pos_cmd tp c)) with (tp_max_vel tp) in Hlo, Hhi.
          apply fabs_le. nra.
      - rewrite (disabled_update_eq tiny (set_pos_cmd tp c) p He), commit_curr_pos.
        fields. apply fabs_le. nra. }
    rewrite Nat2Z.inj_succ, <- Z.add_1_r, inject_Z_plus.
    change (inject_Z 1) with 1.
    apply fabs_le in IH. apply fabs_le in Hstep. apply fabs_le. lra.
Qed.

Lemma travel_bounded_along_commands_witness :
  (0 < 0.001 /\ velocities_bounded tp_tracking)
  /\ fabs (tp_curr_pos (simple_tp_follow TINY_DP (cons 1 (cons 100 (cons (-3) nil)))
                          tp_tracking 0.001)
           - tp_curr_pos tp_tracking)
     <= inject_Z 3 * (tp_max_vel tp_tracking * 0.001).
Proof.
  assert (H1 : 0 < 0.001) by (apply Qltb_true; reflexivity).
  assert (H2 : velocities_bounded tp_tracking).
  { unfold velocities_bounded.
    repeat split; try reflexivity; apply Qleb_true; reflexivity. }
  split; [split; assumption|].
  exact (travel_bounded_along_commands TINY_DP
           (cons 1 (cons 100 (cons (-3) nil))) tp_tracking 0.001 H1 H2).
Defined.

(** The bounds are kept by [tp_tracking], whose reachable window is well
    inside them. *)
Lemma position_bound_when_window_inside_witness :
  tp_min_pos (simple_tp_update TINY_DP tp_tracking 0.001)
  <= tp_curr_pos (simple_tp_update TINY_DP tp_tracking 0.001)
  <= tp_max_pos (simple_tp_update TINY_DP tp_tracking 0.001).
Proof.
  assert (H1 : tp_min_pos tp_tracking <= tp_max_pos tp_tracking)
    by (apply Qleb_true; reflexivity).
  assert (H2 : 0 <= tp_max_vel tp_tracking) by (apply Qleb_true; reflexivity).
  assert (H3 : 0 < tp_max_acc tp_tracking) by (apply Qltb_true; reflexivity).
  assert (H4 : 0 < 0.001) by (apply Qltb_true; reflexivity).
  assert (H5 : tp_min_pos tp_tracking <= tp_curr_pos tp_tracking
               <= tp_max_pos tp_tracking)
    by (split; apply Qleb_true; reflexivity).
  assert (H6 : fabs (tp_out_vel_old tp_tracking) <= tp_max_vel tp_tracking)
    by (apply Qleb_true; reflexivity).
  assert (H7 : tp_min_pos tp_tracking <= min_pos tp_tracking 0.001)
    by (apply Qleb_true; reflexivity).
  assert (H8 : max_pos tp_tracking 0.001 <= tp_max_pos tp_tracking)
    by (apply Qleb_true; reflexivity).
  exact (position_bound_when_window_inside TINY_DP tp_tracking 0.001
           H1 H2 H3 H4 H5 H6 H7 H8).
Defined.

(** * The position bounds while the command is held *)








(** Both added hypotheses are needed.  Between one and [sqrt 2]
    acceleration steps of speed the stop is not in reach: in [tp_between],
    with the command held, rule 1 is still silent, parking is not valid,
    and rule 4 commits the maximum reachable candidate 0.00021, beyond the
    bound 0.0002 that the minimum candidate 0.00001 would have kept. *)
Lemma bound_lost_between_stop_regions :
  let tp := tp_between in
  let tp' := simple_tp_update TINY_DP tp 0.001 in
  (tp_min_pos tp <= tp_curr_pos tp <= tp_max_pos tp
   /\ fabs (tp_out_vel_old tp) <= tp_max_vel tp
   /\ tp_in_pos_old tp == tp_pos_cmd tp
   /\ min_pos tp 0.001 <= tp_max_pos tp)
  /\ ~ stop_in_reach tp 0.001
  /\ tp_curr_pos tp' == 0.00021
  /\ tp_max_pos tp' < tp_curr_pos tp'.
Proof.
  cbv zeta. split; [|split; [|split]].
  - repeat split; apply Qleb_true; vm_compute; reflexivity.
  - intros [H|[H _]].
    + vm_compute in H. discriminate H.
    + apply Qleb_true in H. vm_compute in H. discriminate H.
  - vm_compute. reflexivity.
  - apply Qltb_true. vm_compute. reflexivity.
Qed.

(** And the command has to be held.  In [tp_cmd_moving] the channel is at
    rest, so the stop is in reach, and the command is within the bounds,
    but it comes down faster than the channel can follow: rule 7 moves
    closer by a full acceleration step, to 50.00002, beyond the command
    and beyond the bound. *)
Lemma bound_lost_on_moving_command :
  let tp := tp_cmd_moving in
  let tp' := simple_tp_update TINY_DP tp 0.001 in
  (tp_min_pos tp <= tp_curr_pos tp <= tp_max_pos tp
   /\ tp_min_pos tp <= tp_pos_cmd tp <= tp_max_pos tp
   /\ fabs (tp_out_vel_old tp) <= tp_max_vel tp
   /\ stop_in_reach tp 0.001)
  /\ ~ tp_in_pos_old tp == tp_pos_cmd tp
  /\ tp_curr_pos tp' == 50.00002
  /\ tp_max_pos tp' < tp_curr_pos tp'.
Proof.
  cbv zeta. split; [|split; [|split]].
  - repeat split; try (apply Qleb_true; vm_compute; reflexivity).
    left. vm_compute. reflexivity.
  - vm_compute. intro H. discriminate H.
  - vm_compute. reflexivity.
  - apply Qltb_true. vm_compute. reflexivity.
Qed.
